(** * AI_Diplomacy: the client-side parsing and validation core

    A shallow embedding of the parts of [ai_diplomacy/clients.py] that turn a
    model's text into engine orders and negotiation messages:

    - [BaseModelClient._extract_moves]   (the extraction cascade),
    - [BaseModelClient._validate_orders] and [BaseModelClient.fallback_orders],
    - the message validation loop of [BaseModelClient.get_conversation_reply],
    - [get_visible_messages_for_power],

    and, for the further properties at the end, of their callers and of the
    factory of clients:

    - [BaseModelClient.get_orders]       (the orders it returns),
    - [BaseModelClient.get_conversation_reply] (the parsing of the response),
    - [_parse_model_spec] and [load_model_client].

    Python values are modelled as follows.  A [str] is the list of its code
    points ([list N]); a decoded JSON document is a [json] tree whose objects
    keep their fields as an association list in source order (a lookup takes
    the last binding of a key, which is the value a Python [dict] built from
    the same pairs holds); a [dict] iterated in insertion order is an
    association list; a [set] of strings is a [gset].  Code that can raise
    returns an [outcome]. *)

From Stdlib Require Import List NArith Ascii String Bool Lia.
From stdpp Require Import gmap.
Import ListNotations.

Local Open Scope N_scope.

(* ===================================================================== *)
(** ** Python strings *)
(* ===================================================================== *)

Abbreviation pystr := (list N).

(** The code point of an ASCII character and the [str] of a literal. *)
Definition chr (a : ascii) : N := N_of_ascii a.

Definition str (s : string) : pystr := List.map chr (list_ascii_of_string s).
Arguments str s%_string : simpl never.

(** The double quote, and a literal between double quotes. *)
Definition dquote : N := 34.

Definition quoted (s : string) : pystr := dquote :: str s ++ [dquote].
Arguments quoted s%_string : simpl never.

(** The [str] of a literal in which [~] stands for the double quote. *)
Definition text (s : string) : pystr :=
  List.map (fun c => if c =? chr "~" then dquote else c) (str s).
Arguments text s%_string : simpl never.

Definition pystr_eqb (a b : pystr) : bool := bool_decide (a = b).

(** [str.isspace] on one code point, which is also what [\s] matches in a
    [str] pattern and what [str.strip] and [str.split] remove. *)
Definition isspace (c : N) : bool :=
  ((9 <=? c) && (c <=? 13)) || ((28 <=? c) && (c <=? 32))
  || (c =? 133) || (c =? 160) || (c =? 5760)
  || ((8192 <=? c) && (c <=? 8202))
  || (c =? 8232) || (c =? 8233) || (c =? 8239) || (c =? 8287) || (c =? 12288).

(** [s.lstrip()], [s.rstrip()] and [s.strip()]. *)
Fixpoint lstrip (s : pystr) : pystr :=
  match s with
  | c :: r => if isspace c then lstrip r else s
  | [] => []
  end.

Definition rstrip (s : pystr) : pystr := rev (lstrip (rev s)).

Definition strip (s : pystr) : pystr := rstrip (lstrip s).

(** [s.split()]: the maximal runs of non-space characters, in order.
    [cur] is the run being read. *)
Fixpoint split_from (s cur : pystr) : list pystr :=
  match s with
  | [] => match cur with [] => [] | _ => [cur] end
  | c :: r =>
      if isspace c
      then match cur with [] => split_from r [] | _ => cur :: split_from r [] end
      else split_from r (cur ++ [c])
  end.

Definition split (s : pystr) : list pystr := split_from s [].

(** [s.startswith(p)] and [s.endswith(p)]. *)
Fixpoint startswith (s p : pystr) {struct p} : bool :=
  match p, s with
  | [], _ => true
  | a :: p', b :: s' => (a =? b) && startswith s' p'
  | _ :: _, [] => false
  end.

Definition endswith (s p : pystr) : bool := startswith (rev s) (rev p).

(** [s.replace(a, b)] for one-character [a] and [b]. *)
Definition replace_char (a b : N) (s : pystr) : pystr :=
  List.map (fun c => if c =? a then b else c) s.

(** [c in s] for a character. *)
Definition has_char (c : N) (s : pystr) : bool := existsb (N.eqb c) s.

(** [s.split(sep)] for a one-character separator: never empty. *)
Fixpoint split_on (sep : N) (s cur : pystr) : list pystr :=
  match s with
  | [] => [cur]
  | c :: r => if c =? sep then cur :: split_on sep r [] else split_on sep r (cur ++ [c])
  end.

(** [sep.join(parts)] for a one-character separator. *)
Fixpoint join (sep : N) (parts : list pystr) : pystr :=
  match parts with
  | [] => []
  | [p] => p
  | p :: rest => p ++ sep :: join sep rest
  end.

(* ===================================================================== *)
(** ** Decoded JSON values and dictionaries *)
(* ===================================================================== *)

#[local] Unset Elimination Schemes.

(** What [json.loads] returns.  A number keeps its lexeme: no code modelled
    here computes with it. *)
Inductive json : Type :=
  | JNull
  | JBool (b : bool)
  | JNum (lexeme : pystr)
  | JStr (s : pystr)
  | JArr (items : list json)
  | JObj (fields : list (pystr * json)).

#[local] Set Elimination Schemes.

Abbreviation dict := (list (pystr * json)).

(** [d.get(k)]: the last binding of [k]. *)
Fixpoint dict_get (d : dict) (k : pystr) : option json :=
  match d with
  | [] => None
  | (k', v) :: d' =>
      match dict_get d' k with
      | Some w => Some w
      | None => if pystr_eqb k' k then Some v else None
      end
  end.

(** [k in d]. *)
Definition dict_has (d : dict) (k : pystr) : bool :=
  match dict_get d k with Some _ => true | None => false end.

(** [v == s] for a string [s]: only a string equals a string. *)
Definition eq_str (v : json) (s : pystr) : bool :=
  match v with
  | JStr t => pystr_eqb t s
  | _ => false
  end.

(** [isinstance(v, list)] and [isinstance(v, dict)]. *)
Definition is_list (v : json) : bool :=
  match v with JArr _ => true | _ => false end.

Definition is_dict (v : json) : bool :=
  match v with JObj _ => true | _ => false end.

(* ===================================================================== *)
(** ** Exceptions *)
(* ===================================================================== *)

Inductive exn : Type := KeyError | AttributeError.

Inductive outcome (A : Type) : Type :=
  | Ret (a : A)
  | Raise (e : exn).
Arguments Ret {A} a.
Arguments Raise {A} e.

Definition bind {A B : Type} (m : outcome A) (k : A -> outcome B) : outcome B :=
  match m with
  | Ret a => k a
  | Raise e => Raise e
  end.

Notation "'let*' x := m 'in' k" := (bind m (fun x => k))
  (at level 10, x name, m at level 100, k at level 200).

(** [d[k]]. *)
Definition getitem (d : dict) (k : pystr) : outcome json :=
  match dict_get d k with
  | Some v => Ret v
  | None => Raise KeyError
  end.

(* ===================================================================== *)
(** ** [get_visible_messages_for_power] *)
(* ===================================================================== *)

Module Visibility.

(** The condition of the [if], with Python's left-to-right short-circuit
    evaluation of [or]: a later subscript is evaluated only when every
    earlier comparison was false. *)
Definition can_see (msg : dict) (power_name : pystr) : outcome bool :=
  let* r1 := getitem msg (str "recipient") in
  if eq_str r1 (str "ALL") then Ret true else
  let* r2 := getitem msg (str "recipient") in
  if eq_str r2 (str "GLOBAL") then Ret true else
  let* s := getitem msg (str "sender") in
  if eq_str s power_name then Ret true else
  let* r3 := getitem msg (str "recipient") in
  Ret (eq_str r3 power_name).

(** The [for] loop; [visible] is the list built so far. *)
Fixpoint visible_loop (msgs : list dict) (power_name : pystr) (visible : list dict)
  : outcome (list dict) :=
  match msgs with
  | [] => Ret visible
  | msg :: rest =>
      let* b := can_see msg power_name in
      visible_loop rest power_name (if b then visible ++ [msg] else visible)
  end.

Definition get_visible_messages_for_power (conversation_messages : list dict)
    (power_name : pystr) : outcome (list dict) :=
  visible_loop conversation_messages power_name [].

(** The specification's side.  A message record carries a sender and a
    recipient; the broadcast marker is the recipient value that addresses
    everybody. *)
Definition has_field (msg : dict) (k : pystr) : Prop := dict_get msg k <> None.

Definition is_record (msg : dict) : Prop :=
  has_field msg (str "sender") /\ has_field msg (str "recipient").

Definition field_is (msg : dict) (k v : pystr) : bool :=
  match dict_get msg k with
  | Some x => eq_str x v
  | None => false
  end.

Definition is_broadcast (msg : dict) : bool :=
  field_is msg (str "recipient") (str "ALL")
  || field_is msg (str "recipient") (str "GLOBAL").

Definition visible_to (power_name : pystr) (msg : dict) : bool :=
  field_is msg (str "sender") power_name
  || field_is msg (str "recipient") power_name
  || is_broadcast msg.

(** A message the filter reads without a [KeyError]: a broadcast needs no
    sender, any other message needs both fields. *)
Definition readable (msg : dict) : Prop :=
  is_broadcast msg = true \/ is_record msg.

(** The transcript of the specification's scenario, and one more message
    that is addressed to ["GLOBAL"] and names no sender. *)
Definition message (sender recipient : string) : dict :=
  [(str "sender", JStr (str sender)); (str "recipient", JStr (str recipient))].

Definition scenario : list dict :=
  [message "A" "ALL"; message "B" "C"; message "A" "C"].

Definition anonymous_global : dict := [(str "recipient", JStr (str "GLOBAL"))].

End Visibility.

(* ===================================================================== *)
(** ** Message validation in [get_conversation_reply] *)
(* ===================================================================== *)

Module Messages.

(** The test of the outer [if]. *)
Definition well_shaped (msg : json) : bool :=
  match msg with
  | JObj d => dict_has d (str "message_type") && dict_has d (str "content")
  | _ => false
  end.

(** The test of the inner [if]; it is evaluated on a dictionary that has
    the key [message_type]. *)
Definition private_without_recipient (msg : json) : bool :=
  match msg with
  | JObj d =>
      match dict_get d (str "message_type") with
      | Some t => eq_str t (str "private") && negb (dict_has d (str "recipient"))
      | None => false
      end
  | _ => false
  end.

(** The [for msg in parsed_messages] loop; [validated_messages] is the list
    built so far. *)
Fixpoint validate_loop (parsed_messages validated_messages : list json) : list json :=
  match parsed_messages with
  | [] => validated_messages
  | msg :: rest =>
      if well_shaped msg then
        if private_without_recipient msg
        then validate_loop rest validated_messages
        else validate_loop rest (validated_messages ++ [msg])
      else validate_loop rest validated_messages
  end.

(** From [if not parsed_messages] to the value of [messages_to_return]. *)
Definition validated_reply (parsed_messages : list json) : list json :=
  let parsed_messages :=
    match parsed_messages with
    | [] => parsed_messages
    | _ => validate_loop parsed_messages []
    end in
  match parsed_messages with
  | [] => []
  | _ => parsed_messages
  end.

(** The specification's side: a candidate is a message record when it is a
    record with the fields [message_type] and [content] and, when its
    [message_type] is [private], also the field [recipient]. *)
Definition field_present (k : pystr) (v : json) : bool :=
  match v with
  | JObj d => dict_has d k
  | _ => false
  end.

Definition is_private (v : json) : bool :=
  match v with
  | JObj d =>
      match dict_get d (str "message_type") with
      | Some t => eq_str t (str "private")
      | None => false
      end
  | _ => false
  end.

Definition is_message_record (v : json) : bool :=
  field_present (str "message_type") v && field_present (str "content") v
  && (if is_private v then field_present (str "recipient") v else true).

End Messages.

(* ===================================================================== *)
(** ** [_validate_orders] and [fallback_orders] *)
(* ===================================================================== *)

Module Orders.

(** [possible_orders]: a dictionary from location to the legal orders
    there, in insertion order. *)
Abbreviation legal_actions := (list (pystr * list pystr)).

(** [o.endswith("H")]. *)
Definition is_hold (o : pystr) : bool := endswith o (str "H").

(** [hold_candidates[0] if hold_candidates else orders_list[0]], for a
    list whose first element is [first]. *)
Definition choose (first : pystr) (orders_list : list pystr) : pystr :=
  match List.filter is_hold orders_list with
  | h :: _ => h
  | [] => first
  end.

(** The loop of [fallback_orders]; [fallback] is the list built so far. *)
Fixpoint fallback_loop (items : legal_actions) (fallback : list pystr) : list pystr :=
  match items with
  | [] => fallback
  | (loc, orders_list) :: rest =>
      match orders_list with
      | first :: _ => fallback_loop rest (fallback ++ [choose first orders_list])
      | [] => fallback_loop rest fallback
      end
  end.

Definition fallback_orders (possible_orders : legal_actions) : list pystr :=
  fallback_loop possible_orders [].

(** [any(move_str in loc_orders for loc_orders in possible_orders.values())]. *)
Definition is_legal (possible_orders : legal_actions) (move_str : json) : bool :=
  existsb (fun item => existsb (eq_str move_str) (snd item)) possible_orders.

(** [parts[1][:3]] when [len(parts) >= 2]. *)
Definition order_location (move : pystr) : option pystr :=
  match split move with
  | _ :: p1 :: _ => Some (firstn 3 p1)
  | _ => None
  end.

(** The state of the first loop. *)
Record progress : Type := {
  validated : list json;
  invalid_moves_found : list json;
  used_locs : gset pystr
}.

Definition start : progress :=
  {| validated := []; invalid_moves_found := []; used_locs := ∅ |}.

(** One accepted move: [validated.append] and [used_locs.add].  Only a
    string has [split]. *)
Definition accept (st : progress) (move_str : json) : outcome progress :=
  match move_str with
  | JStr s =>
      Ret {| validated := validated st ++ [move_str];
             invalid_moves_found := invalid_moves_found st;
             used_locs := match order_location s with
                          | Some loc => {[ loc ]} ∪ used_locs st
                          | None => used_locs st
                          end |}
  | _ => Raise AttributeError
  end.

Definition reject (st : progress) (move_str : json) : progress :=
  {| validated := validated st;
     invalid_moves_found := invalid_moves_found st ++ [move_str];
     used_locs := used_locs st |}.

(** [for move_str in moves]. *)
Fixpoint check_moves (possible_orders : legal_actions) (moves : list json)
    (st : progress) : outcome progress :=
  match moves with
  | [] => Ret st
  | move_str :: rest =>
      if is_legal possible_orders move_str
      then let* st' := accept st move_str in check_moves possible_orders rest st'
      else check_moves possible_orders rest (reject st move_str)
  end.

(** [for loc, orders_list in possible_orders.items()]: fill missing with
    hold. *)
Fixpoint fill_missing (items : legal_actions) (used : gset pystr)
    (validated : list json) : list json :=
  match items with
  | [] => validated
  | (loc, orders_list) :: rest =>
      match orders_list with
      | first :: _ =>
          if bool_decide (loc ∉ used)
          then fill_missing rest used (validated ++ [JStr (choose first orders_list)])
          else fill_missing rest used validated
      | [] => fill_missing rest used validated
      end
  end.

Definition is_empty {A : Type} (l : list A) : bool :=
  match l with [] => true | _ => false end.

Definition _validate_orders (moves : json) (possible_orders : legal_actions)
  : outcome (list json * list json) :=
  match moves with
  | JArr moves =>
      let* st := check_moves possible_orders moves start in
      let validated := fill_missing possible_orders (used_locs st) (validated st) in
      let invalid_moves_found := invalid_moves_found st in
      if is_empty validated && is_empty invalid_moves_found
      then Ret (List.map JStr (fallback_orders possible_orders), [])
      else if is_empty validated && negb (is_empty invalid_moves_found)
      then Ret (List.map JStr (fallback_orders possible_orders), invalid_moves_found)
      else Ret (validated, invalid_moves_found)
  | _ => Ret (List.map JStr (fallback_orders possible_orders), [])
  end.

(** *** The specification's side *)

(** The proposals of a payload: the items of a list, nothing otherwise. *)
Definition proposals (moves : json) : list json :=
  match moves with
  | JArr items => items
  | _ => []
  end.

(** A payload that is a sequence of strings. *)
Definition is_str (v : json) : bool :=
  match v with JStr _ => true | _ => false end.

Definition is_string_list (moves : json) : bool :=
  match moves with
  | JArr items => forallb is_str items
  | _ => false
  end.

(** An action of the legal-action set: it occurs in the sequence of some
    location. *)
Definition legal_in (possible_orders : legal_actions) (a : pystr) : Prop :=
  exists loc orders_list, In (loc, orders_list) possible_orders /\ In a orders_list.

(** The accepted and the rejected proposals, in proposal order. *)
Definition accepted (possible_orders : legal_actions) (moves : list json) : list json :=
  List.filter (is_legal possible_orders) moves.

Definition rejected (possible_orders : legal_actions) (moves : list json) : list json :=
  List.filter (fun m => negb (is_legal possible_orders m)) moves.

(** The locations that a list of actions covers: the location each one
    resolves to. *)
Definition resolved (v : json) : list pystr :=
  match v with
  | JStr a => match order_location a with Some loc => [loc] | None => [] end
  | _ => []
  end.

Definition covered (actions : list json) : gset pystr :=
  list_to_set (flat_map resolved actions).

(** The fallback rule in the specification's words: the first action of
    the sequence that ends with the hold indicator when there is one, else
    the first action of the sequence. *)
Definition first_hold_else_first (orders_list : list pystr) (a : pystr) : Prop :=
  (exists before after,
      orders_list = before ++ a :: after
      /\ is_hold a = true
      /\ Forall (fun o => is_hold o = false) before)
  \/ (Forall (fun o => is_hold o = false) orders_list
      /\ exists rest, orders_list = a :: rest).

(** The locations that get a fallback: those with a legal action that no
    accepted proposal covers, in the iteration order of the dictionary. *)
Definition needs_fallback (used : gset pystr) (item : pystr * list pystr) : bool :=
  bool_decide (fst item ∉ used) && negb (is_empty (snd item)).

Definition uncovered (possible_orders : legal_actions) (used : gset pystr) : legal_actions :=
  List.filter (needs_fallback used) possible_orders.

(** The fallback of one location. *)
Definition fallback_of (item : pystr * list pystr) : list json :=
  match snd item with
  | first :: _ => [JStr (choose first (snd item))]
  | [] => []
  end.

Definition synthesized (possible_orders : legal_actions) (used : gset pystr) : list json :=
  flat_map fallback_of (uncovered possible_orders used).

(** Coverage: the number of validated actions that resolve to a location. *)
Definition resolves_to (loc : pystr) (v : json) : bool :=
  bool_decide (resolved v = [loc]).

Definition actions_at (loc : pystr) (validated : list json) : nat :=
  length (List.filter (resolves_to loc) validated).

Definition total_coverage (possible_orders : legal_actions) (validated : list json) : Prop :=
  forall loc orders_list,
    In (loc, orders_list) possible_orders ->
    actions_at loc validated = if is_empty orders_list then 0%nat else 1%nat.

(** A legal-action set as the engine builds it: one entry per location, and
    every order listed at a location is an order of the unit there. *)
Definition well_formed (possible_orders : legal_actions) : Prop :=
  NoDup (List.map fst possible_orders)
  /\ forall loc orders_list a,
      In (loc, orders_list) possible_orders -> In a orders_list ->
      order_location a = Some loc.

(** The legal-action set of the specification's scenarios. *)
Definition paris_marseilles : legal_actions :=
  [(str "PAR", [str "A PAR H"; str "A PAR - BUR"]); (str "MAR", [str "A MAR H"])].

End Orders.

(* ===================================================================== *)
(** ** Regular expressions: [re.search] and [re.sub] *)
(* ===================================================================== *)

Module Regex.

(** The fragment of the pattern language that the patterns of the client
    use, each with one capturing group.  A starred item is always a
    character class there. *)
Inductive regex : Type :=
  | Lit (s : pystr)                 (* the characters of [s] *)
  | Class (p : N -> bool)           (* one character of a class *)
  | Star (p : N -> bool)            (* [c*], greedy *)
  | LazyStar (p : N -> bool)        (* [c*?] *)
  | Group (r : regex)               (* [(r)] *)
  | Seq (r1 r2 : regex)             (* [r1 r2] *)
  | EndOfString.                    (* [$] *)

Declare Scope regex_scope.
Delimit Scope regex_scope with re.
Bind Scope regex_scope with regex.
Infix "··" := Seq (at level 60, right associativity) : regex_scope.

(** Character classes. *)
Definition any (c : N) : bool := true.                       (* [.] under DOTALL, [[\s\S]] *)
Definition one_of (s : pystr) (c : N) : bool := existsb (N.eqb c) s.
Definition none_of (s : pystr) (c : N) : bool := negb (one_of s c).

(** [$]: at the end of the string, or before a newline that ends it. *)
Definition at_end (s : pystr) : bool :=
  match s with
  | [] => true
  | [c] => c =? 10
  | _ => false
  end.

(** A backtracking matcher in continuation-passing style.  [s] is the
    text from the current position on, [cap] the text of the group when
    it is closed, and [k] what remains to be matched; alternatives are
    tried in the order of Python's engine: a greedy star takes the longest
    run first, a lazy one the shortest. *)
Fixpoint matches {R : Type} (r : regex) (s : pystr) (cap : option pystr)
    (k : pystr -> option pystr -> option R) : option R :=
  match r with
  | Lit l => if startswith s l then k (skipn (length l) s) cap else None
  | Class p =>
      match s with
      | c :: s' => if p c then k s' cap else None
      | [] => None
      end
  | Star p =>
      (fix longest (s : pystr) : option R :=
         match s with
         | c :: s' =>
             if p c
             then match longest s' with Some x => Some x | None => k s cap end
             else k s cap
         | [] => k s cap
         end) s
  | LazyStar p =>
      (fix shortest (s : pystr) : option R :=
         match k s cap with
         | Some x => Some x
         | None =>
             match s with
             | c :: s' => if p c then shortest s' else None
             | [] => None
             end
         end) s
  | Group r' =>
      matches r' s cap (fun s' _ => k s' (Some (firstn (length s - length s') s)))
  | Seq r1 r2 => matches r1 s cap (fun s' cap' => matches r2 s' cap' k)
  | EndOfString => if at_end s then k s cap else None
  end.

(** A match that starts at the head of [s]: its group and the text after
    it. *)
Definition match_here (r : regex) (s : pystr) : option (pystr * pystr) :=
  matches r s None (fun s' cap =>
    match cap with
    | Some g => Some (g, s')
    | None => Some ([], s')
    end).

(** [re.search(r, s).group(1)]: the leftmost match. *)
Fixpoint search (r : regex) (s : pystr) : option pystr :=
  match match_here r s with
  | Some (g, _) => Some g
  | None =>
      match s with
      | _ :: s' => search r s'
      | [] => None
      end
  end.

(** [re.sub(r, r"\1", s)] for a pattern that matches no empty string:
    every match, from the left and without overlap, is replaced by its
    group.  [fuel] bounds the number of steps; the length of the text is
    enough. *)
Fixpoint sub_from (fuel : nat) (r : regex) (s : pystr) : pystr :=
  match fuel with
  | O => s
  | S fuel =>
      match s with
      | [] => []
      | c :: s' =>
          match match_here r s with
          | Some (g, rest) =>
              if (length rest <? length s)%nat
              then g ++ sub_from fuel r rest
              else c :: sub_from fuel r s'
          | None => c :: sub_from fuel r s'
          end
      end
  end.

Definition sub_group (r : regex) (s : pystr) : pystr := sub_from (length s) r s.

End Regex.

(* ===================================================================== *)
(** ** [json.loads] *)
(* ===================================================================== *)

Module Json.

(** The decoder of the standard library, as its scanner reads a text:
    [scan_once], [JSONObject], [JSONArray], [scanstring] and the number
    pattern.  [None] is a [JSONDecodeError].  A number is kept as its
    lexeme, so the limits of the conversion to [int] and [float] are not
    modelled, and neither is the recursion limit of the interpreter. *)

(** [WHITESPACE]: blank, tab, line feed, carriage return. *)
Definition is_ws (c : N) : bool := (c =? 32) || (c =? 9) || (c =? 10) || (c =? 13).

Fixpoint skip_ws (s : pystr) : pystr :=
  match s with
  | c :: r => if is_ws c then skip_ws r else s
  | [] => []
  end.

Definition is_digit (c : N) : bool := (48 <=? c) && (c <=? 57).

(** The value of a hexadecimal digit. *)
Definition hex_value (c : N) : option N :=
  if is_digit c then Some (c - 48)
  else if (65 <=? c) && (c <=? 70) then Some (c - 55)
  else if (97 <=? c) && (c <=? 102) then Some (c - 87)
  else None.

(** [_decode_uXXXX]: the number that four hexadecimal digits write. *)
Definition hex4 (a b c d : N) : option N :=
  match hex_value a, hex_value b, hex_value c, hex_value d with
  | Some x, Some y, Some z, Some w => Some (((x * 16 + y) * 16 + z) * 16 + w)
  | _, _, _, _ => None
  end.

(** [BACKSLASH]: the character that a one-letter escape stands for. *)
Definition unescape (e : N) : option N :=
  if e =? dquote then Some (dquote)
  else if e =? chr "\" then Some (chr "\")
  else if e =? chr "/" then Some (chr "/")
  else if e =? chr "b" then Some 8
  else if e =? chr "f" then Some 12
  else if e =? chr "n" then Some 10
  else if e =? chr "r" then Some 13
  else if e =? chr "t" then Some 9
  else None.

Definition is_high_surrogate (u : N) : bool := (55296 <=? u) && (u <=? 56319).
Definition is_low_surrogate (u : N) : bool := (56320 <=? u) && (u <=? 57343).

(** [scanstring], strict: the text after the opening quote is read up to
    the closing quote.  [chunks] is the string decoded so far and [pending]
    a high surrogate that the escape just read denotes: it is joined with
    the low surrogate of an escape that follows at once, and stands alone
    otherwise.  A control character, an unknown escape and a missing
    closing quote are errors. *)
Definition flush (pending : option N) (chunks : pystr) : pystr :=
  match pending with
  | Some high => chunks ++ [high]
  | None => chunks
  end.

Definition join_surrogates (high low : N) : N :=
  65536 + ((high - 55296) * 1024 + (low - 56320)).

Fixpoint scanstring (s : pystr) (chunks : pystr) (pending : option N)
  : option (pystr * pystr) :=
  match s with
  | [] => None
  | c :: r =>
      if c =? dquote then Some (flush pending chunks, r)
      else if c =? chr "\" then
        match r with
        | [] => None
        | esc :: r1 =>
            if esc =? chr "u" then
              match r1 with
              | h1 :: h2 :: h3 :: h4 :: r2 =>
                  match hex4 h1 h2 h3 h4 with
                  | None => None
                  | Some uni =>
                      match pending with
                      | Some high =>
                          if is_low_surrogate uni
                          then scanstring r2 (chunks ++ [join_surrogates high uni]) None
                          else if is_high_surrogate uni
                          then scanstring r2 (chunks ++ [high]) (Some uni)
                          else scanstring r2 (chunks ++ [high; uni]) None
                      | None =>
                          if is_high_surrogate uni
                          then scanstring r2 chunks (Some uni)
                          else scanstring r2 (chunks ++ [uni]) None
                      end
                  end
              | _ => None
              end
            else
              match unescape esc with
              | Some char => scanstring r1 (flush pending chunks ++ [char]) None
              | None => None
              end
        end
      else if c <? 32 then None
      else scanstring r (flush pending chunks ++ [c]) None
  end.

(** [NUMBER_RE]: an integer part, then a fraction and an exponent when
    they are complete.  The lexeme and the text after it. *)
Fixpoint span_digits (s : pystr) : pystr * pystr :=
  match s with
  | c :: r => if is_digit c then let (d, rest) := span_digits r in (c :: d, rest) else ([], s)
  | [] => ([], [])
  end.

Definition scan_int (s : pystr) : option (pystr * pystr) :=
  match s with
  | c :: r =>
      if c =? chr "0" then Some ([c], r)
      else if is_digit c then let (d, rest) := span_digits r in Some (c :: d, rest)
      else None
  | [] => None
  end.

Definition scan_frac (s : pystr) : pystr * pystr :=
  match s with
  | c :: r =>
      if c =? chr "." then
        match span_digits r with
        | ([], _) => ([], s)
        | (d, rest) => (c :: d, rest)
        end
      else ([], s)
  | [] => ([], s)
  end.

Definition scan_exp (s : pystr) : pystr * pystr :=
  match s with
  | e :: r =>
      if (e =? chr "e") || (e =? chr "E") then
        match r with
        | sign :: r' =>
            if (sign =? chr "-") || (sign =? chr "+") then
              match span_digits r' with
              | ([], _) => ([], s)
              | (d, rest) => (e :: sign :: d, rest)
              end
            else
              match span_digits r with
              | ([], _) => ([], s)
              | (d, rest) => (e :: d, rest)
              end
        | [] => ([], s)
        end
      else ([], s)
  | [] => ([], s)
  end.

Definition scan_unsigned (sign s : pystr) : option (pystr * pystr) :=
  match scan_int s with
  | Some (i, r1) =>
      let (f, r2) := scan_frac r1 in
      let (e, r3) := scan_exp r2 in
      Some (sign ++ i ++ f ++ e, r3)
  | None => None
  end.

Definition match_number (s : pystr) : option (pystr * pystr) :=
  match s with
  | c :: r => if c =? chr "-" then scan_unsigned [c] r else scan_unsigned [] s
  | [] => None
  end.

(** A constant: [s] starts with the word. *)
Definition keyword (word : string) (v : json) (s : pystr) : option (json * pystr) :=
  if startswith s (str word) then Some (v, skipn (length (str word)) s) else None.

(** The values that hold no other value, but the string: the constants and
    the numbers, in the order in which [scan_once] tries them. *)
Definition atom (s : pystr) : option (json * pystr) :=
  match s with
  | [] => None
  | c :: _ =>
      if c =? chr "n" then keyword "null" JNull s
      else if c =? chr "t" then keyword "true" (JBool true) s
      else if c =? chr "f" then keyword "false" (JBool false) s
      else
        match match_number s with
        | Some (lexeme, rest) => Some (JNum lexeme, rest)
        | None =>
            if c =? chr "N" then keyword "NaN" (JNum (str "NaN")) s
            else if c =? chr "I" then keyword "Infinity" (JNum (str "Infinity")) s
            else if c =? chr "-" then keyword "-Infinity" (JNum (str "-Infinity")) s
            else None
        end
  end.

Definition string_value (s : pystr) : option (json * pystr) :=
  match scanstring s [] None with
  | Some (t, rest) => Some (JStr t, rest)
  | None => None
  end.

(** Where an object or an array stands after one of its delimiters: it is
    closed, or one more item follows. *)
Inductive after : Type :=
  | Closed (rest : pystr)
  | Next (rest : pystr).

(** After the opening brace: the closing brace, or the quote of a key. *)
Definition open_object (s : pystr) : option after :=
  match skip_ws s with
  | c :: r =>
      if c =? chr "}" then Some (Closed r)
      else if c =? dquote then Some (Next r)
      else None
  | [] => None
  end.

(** After the opening bracket: the closing bracket, or a value. *)
Definition open_array (s : pystr) : option after :=
  match skip_ws s with
  | c :: r => if c =? chr "]" then Some (Closed r) else Some (Next (c :: r))
  | [] => None
  end.

(** A key, from the text after its opening quote on, and the colon. *)
Definition key_colon (s : pystr) : option (pystr * pystr) :=
  match scanstring s [] None with
  | Some (key, s1) =>
      match skip_ws s1 with
      | c :: s2 => if c =? chr ":" then Some (key, skip_ws s2) else None
      | [] => None
      end
  | None => None
  end.

(** After a member: the closing brace, or a comma and the quote of a key. *)
Definition after_member (s : pystr) : option after :=
  match skip_ws s with
  | c :: r =>
      if c =? chr "}" then Some (Closed r)
      else if c =? chr "," then
        match skip_ws r with
        | q :: r' => if q =? dquote then Some (Next r') else None
        | [] => None
        end
      else None
  | [] => None
  end.

(** After an element: the closing bracket, or a comma. *)
Definition after_element (s : pystr) : option after :=
  match skip_ws s with
  | c :: r =>
      if c =? chr "]" then Some (Closed r)
      else if c =? chr "," then Some (Next (skip_ws r))
      else None
  | [] => None
  end.

(** [scan_once], [JSONObject] and [JSONArray].  [members] reads an object
    from the text after the opening quote of a key on, [elements] an array
    from a value on; [pairs] and [values] are what was read so far.  Every
    call spends one unit of [fuel]; twice the length of the text is
    enough. *)
Fixpoint scan_once (fuel : nat) (s : pystr) : option (json * pystr) :=
  match fuel with
  | O => None
  | S fuel =>
      match s with
      | [] => None
      | c :: r =>
          if c =? dquote then string_value r
          else if c =? chr "{" then
            match open_object r with
            | Some (Closed rest) => Some (JObj [], rest)
            | Some (Next rest) => members fuel rest []
            | None => None
            end
          else if c =? chr "[" then
            match open_array r with
            | Some (Closed rest) => Some (JArr [], rest)
            | Some (Next rest) => elements fuel rest []
            | None => None
            end
          else atom s
      end
  end

with members (fuel : nat) (s : pystr) (pairs : list (pystr * json)) : option (json * pystr) :=
  match fuel with
  | O => None
  | S fuel =>
      match key_colon s with
      | None => None
      | Some (key, s1) =>
          match scan_once fuel s1 with
          | None => None
          | Some (value, s2) =>
              match after_member s2 with
              | Some (Closed rest) => Some (JObj (pairs ++ [(key, value)]), rest)
              | Some (Next rest) => members fuel rest (pairs ++ [(key, value)])
              | None => None
              end
          end
      end
  end

with elements (fuel : nat) (s : pystr) (values : list json) : option (json * pystr) :=
  match fuel with
  | O => None
  | S fuel =>
      match scan_once fuel s with
      | None => None
      | Some (value, s1) =>
          match after_element s1 with
          | Some (Closed rest) => Some (JArr (values ++ [value]), rest)
          | Some (Next rest) => elements fuel rest (values ++ [value])
          | None => None
          end
      end
  end.

(** [json.loads(s)]: one value between blanks, and no byte order mark. *)
Definition loads (s : pystr) : option json :=
  if startswith s [65279] then None
  else
    match scan_once (S (2 * length s)) (skip_ws s) with
    | Some (v, rest) =>
        match skip_ws rest with
        | [] => Some v
        | _ => None
        end
    | None => None
    end.

(** *** The lexical structure of a text *)

(** Where a reader of the text stands: outside a string literal, inside
    one, or after a backslash inside one. *)
Inductive lex_state : Type := Outside | Inside | Escaped.

(** One character.  Outside a string literal a valid text has no slash and
    no backslash, and inside one no control character. *)
Definition lex_step (st : lex_state) (c : N) : option lex_state :=
  match st with
  | Outside =>
      if c =? dquote then Some Inside
      else if (c =? chr "\") || (c =? chr "/") then None
      else Some Outside
  | Inside =>
      if c =? dquote then Some Outside
      else if c =? chr "\" then Some Escaped
      else if c <? 32 then None
      else Some Inside
  | Escaped => if c <? 32 then None else Some Inside
  end.

Fixpoint lex (st : lex_state) (s : pystr) : option lex_state :=
  match s with
  | [] => Some st
  | c :: r =>
      match lex_step st c with
      | Some st' => lex st' r
      | None => None
      end
  end.

(** A character that a valid text may have outside a string literal. *)
Definition plain (c : N) : bool :=
  negb ((c =? dquote) || (c =? chr "\") || (c =? chr "/")).

(** The characters of a number. *)
Definition number_char (c : N) : bool :=
  is_digit c || (c =? chr "-") || (c =? chr "+") || (c =? chr ".")
  || (c =? chr "e") || (c =? chr "E").



(** A reader that stands at [s] in state [st] reads [k] characters or more
    and stands at [rest] in state [st']. *)
Definition reads (k : nat) (st : lex_state) (s rest : pystr) (st' : lex_state) : Prop :=
  exists consumed,
    s = consumed ++ rest /\ (k <= length consumed)%nat /\ lex st consumed = Some st'.

End Json.

(* ===================================================================== *)
(** ** [_extract_moves] *)
(* ===================================================================== *)

Module Extract.
Import Regex.

Local Open Scope regex_scope.

(** *** The patterns of the cascade, all searched with [re.DOTALL] *)

(** [PARSABLE OUTPUT:\s*(\{[\s\S]*\})] *)
Definition pattern : regex :=
  Lit (str "PARSABLE OUTPUT:") ·· Star isspace
  ·· Group (Lit (str "{") ·· Star any ·· Lit (str "}")).

(** [PARSABLE OUTPUT\s*\{(.*?)\}\s*$] *)
Definition pattern_alt : regex :=
  Lit (str "PARSABLE OUTPUT") ·· Star isspace ·· Lit (str "{")
  ·· Group (LazyStar any) ·· Lit (str "}") ·· Star isspace ·· EndOfString.

(** [\*\*PARSABLE OUTPUT:\*\*\s*(\{[\s\S]*?\})] *)
Definition pattern_asterisk : regex :=
  Lit (str "**PARSABLE OUTPUT:**") ·· Star isspace
  ·· Group (Lit (str "{") ·· LazyStar any ·· Lit (str "}")).

(** [```json\n(.*?)\n```] *)
Definition code_fence_pattern : regex :=
  Lit (str "```json" ++ [10]) ·· Group (LazyStar any) ·· Lit (10 :: str "```").

(** [```\n(.*?)\n```] *)
Definition code_fence_plain : regex :=
  Lit (str "```" ++ [10]) ·· Group (LazyStar any) ·· Lit (10 :: str "```").

(** [(\{[^{}]*"orders"\s*:\s*\[[^\]]*\][^{}]*\})]: a brace block without
    inner braces that holds the key and a bracketed list. *)
Definition bare_json_pattern : regex :=
  Group (Lit (str "{") ·· Star (none_of (str "{}")) ·· Lit (quoted "orders")
         ·· Star isspace ·· Lit (str ":") ·· Star isspace ·· Lit (str "[")
         ·· Star (none_of (str "]")) ·· Lit (str "]") ·· Star (none_of (str "{}")) ·· Lit (str "}")).

(** [,\s*([\}\]])] *)
Definition trailing_comma : regex :=
  Lit (str ",") ·· Star isspace ·· Group (Class (one_of (str "}]"))).

(** The key [orders] between quotes of either kind, a colon, and a
    bracketed list whose inside is the group:
    [QUOTE orders QUOTE \s* : \s* \[ ( [^\]]* ) \]] without the blanks, where
    [QUOTE] is the class of the double and the single quote. *)
Definition bracket_pattern : regex :=
  Class (one_of (dquote :: str "'")) ·· Lit (str "orders") ·· Class (one_of (dquote :: str "'"))
  ·· Star isspace ·· Lit (str ":") ·· Star isspace ·· Lit (str "[")
  ·· Group (Star (none_of (str "]"))) ·· Lit (str "]").

(** *** From the response to the candidate block *)

(** The cascade: each pattern is searched only when the ones before it
    found nothing. *)
Definition first_match (raw_response : pystr) : option pystr :=
  match search pattern raw_response with
  | Some g => Some g
  | None =>
  match search pattern_alt raw_response with
  | Some g => Some g
  | None =>
  match search pattern_asterisk raw_response with
  | Some g => Some g
  | None =>
  match search code_fence_pattern raw_response with
  | Some g => Some g
  | None =>
  match search code_fence_plain raw_response with
  | Some g => Some g
  | None => search bare_json_pattern raw_response
  end end end end end.

(** [captured[1:-1]] for a text of two characters or more. *)
Definition inner (captured : pystr) : pystr := removelast (tl captured).

(** The braces are put back around the group when it lost them. *)
Definition json_text_of (group : pystr) : pystr :=
  let captured := strip group in
  let json_text :=
    if startswith captured (str "{{") then inner captured
    else if startswith captured (str "{") then captured
    else str "{" ++ captured ++ str "}" in
  strip json_text.

(** [json_text], or [None] when nothing was found or the block is empty. *)
Definition candidate (raw_response : pystr) : option pystr :=
  match first_match raw_response with
  | Some group =>
      match json_text_of group with
      | [] => None
      | json_text => Some json_text
      end
  | None => None
  end.

(** *** Decoding the candidate block *)

(** [data.get("orders", None)]; Python's [None] is [JNull]. *)
Definition get_orders (data : json) : outcome json :=
  match data with
  | JObj d =>
      match dict_get d (str "orders") with
      | Some v => Ret v
      | None => Ret JNull
      end
  | _ => Raise AttributeError
  end.

(** [re.sub(r",\s*([\}\]])", r"\1", text)] *)
Definition strip_trailing_commas (text : pystr) : pystr :=
  sub_group trailing_comma text.

(** The repair pass: trailing commas removed, single quotes made double. *)
Definition fixed_json (json_text : pystr) : pystr :=
  replace_char (chr "'") (dquote) (strip_trailing_commas json_text).

(** The scan of one line for a comment.  [line] is the text from index [i]
    on; the result is [comment_pos] when the scan stops at a [//] outside
    quotes. *)
Fixpoint find_comment (line : pystr) (i : nat) (in_quotes escape_next : bool)
  : option nat :=
  match line with
  | [] => None
  | char :: rest =>
      if escape_next then find_comment rest (S i) in_quotes false
      else if char =? chr "\" then find_comment rest (S i) in_quotes true
      else
        let in_quotes := if char =? dquote then negb in_quotes else in_quotes in
        if negb in_quotes && startswith line (str "//") then Some i
        else find_comment rest (S i) in_quotes false
  end.

Definition cleaned_line (line : pystr) : pystr :=
  match find_comment line 0 false false with
  | Some comment_pos => rstrip (firstn comment_pos line)
  | None => line
  end.

(** The comment pass: comments cut line by line, then trailing commas. *)
Definition comment_free_json (json_text : pystr) : pystr :=
  strip_trailing_commas
    (join 10 (List.map cleaned_line (split_on 10 json_text []))).

Section WithLiteralEval.

(** [ast.literal_eval], which the bracket fallback calls on a bracketed
    list: the value of the literal, or [None] when it raises. *)
Variable literal_eval : pystr -> option json.

(** The bracket fallback; every exception in it is caught. *)
Definition bracket_fallback (json_text : pystr) : json :=
  match search bracket_pattern json_text with
  | Some group =>
      match literal_eval (str "[" ++ strip group ++ str "]") with
      | Some moves => if is_list moves then moves else JNull
      | None => JNull
      end
  | None => JNull
  end.

(** The three decoding attempts, then the bracket fallback. *)
Definition decode (json_text : pystr) : outcome json :=
  match Json.loads json_text with
  | Some data => get_orders data
  | None =>
      match Json.loads (fixed_json json_text) with
      | Some data => get_orders data
      | None =>
          match Json.loads (comment_free_json json_text) with
          | Some data => get_orders data
          | None => Ret (bracket_fallback json_text)
          end
      end
  end.

Definition _extract_moves (raw_response : pystr) : outcome json :=
  match candidate raw_response with
  | None => Ret JNull
  | Some json_text => decode json_text
  end.

End WithLiteralEval.

(** *** The specification's side *)

(** A trailing comma at the head of a text: a comma, blanks, and a closing
    bracket or brace.  The bracket and the text after it. *)
Definition is_closer (c : N) : bool := (c =? chr "}") || (c =? chr "]").

Definition comma_here (s : pystr) : option (N * pystr) :=
  match s with
  | c :: r =>
      if c =? chr "," then
        match lstrip r with
        | d :: r' => if is_closer d then Some (d, r') else None
        | [] => None
        end
      else None
  | [] => None
  end.













(** A [literal_eval] that always raises, for the examples that do not reach
    the bracket fallback. *)
Definition no_literal (s : pystr) : option json := None.

(** *** Example responses *)







End Extract.

(* ===================================================================== *)
(** ** Further notions for the properties of the code *)
(* ===================================================================== *)

(** [sub in s] for strings. *)
Fixpoint contains (s sub : pystr) : bool :=
  startswith s sub || match s with _ :: r => contains r sub | [] => false end.

Module Reading.
Import Visibility.

(** A message that the filter reads to the end of its test: it has a
    recipient and, unless the recipient is a broadcast marker, a sender. *)
Definition can_read (msg : dict) : bool :=
  is_broadcast msg
  || (dict_has msg (str "sender") && dict_has msg (str "recipient")).

End Reading.

Module Proposals.
Import Orders.

(** A location is served by a list of orders when it has no legal order or
    one of the orders resolves to it. *)
Definition served (orders : list json) (item : pystr * list pystr) : bool :=
  is_empty (snd item) || bool_decide (fst item ∈ covered orders).

(** A location that can hold: it has no legal order, or a hold among
    them. *)
Definition can_hold (item : pystr * list pystr) : bool :=
  is_empty (snd item) || existsb is_hold (snd item).

End Proposals.

Module Blocks.
Import Regex.

(** A pattern that matches only texts that hold the character [a]: one of
    its literals holds it. *)
Fixpoint needs (a : N) (r : regex) : bool :=
  match r with
  | Lit l => has_char a l
  | Group r' => needs a r'
  | Seq r1 r2 => needs a r1 || needs a r2
  | Class _ | Star _ | LazyStar _ | EndOfString => false
  end.
















End Blocks.

(* ===================================================================== *)
(** ** [get_orders]: the orders returned for a response *)
(* ===================================================================== *)

Module Client.
Import Orders.

Section WithLibrary.

(** [ast.literal_eval], as for the extraction, and [bool(x)] of the number
    that a lexeme denotes. *)
Variable literal_eval : pystr -> option json.
Variable nonzero : pystr -> bool.

(** [bool(v)]: what [if not move_list] tests. *)
Definition truthy (v : json) : bool :=
  match v with
  | JNull => false
  | JBool b => b
  | JNum lexeme => nonzero lexeme
  | JStr s => negb (is_empty s)
  | JArr items => negb (is_empty items)
  | JObj fields => negb (is_empty fields)
  end.

(** The value of [parsed_orders_for_return] at the end of the [try]
    statement, which is what [get_orders] returns.  [formatted_response] is
    the answer of the model after the optional formatting step, or [None]
    when the call or the formatting raised.  The prompt that is built
    before the [try] statement, the log record and the error counters are
    no part of the returned value. *)
Definition get_orders (formatted_response : option pystr)
    (possible_orders : legal_actions) : list json :=
  let parsed_orders_for_return := List.map JStr (fallback_orders possible_orders) in
  match formatted_response with
  | None => parsed_orders_for_return
  | Some formatted_response =>
      match Extract._extract_moves literal_eval formatted_response with
      | Raise _ => parsed_orders_for_return
      | Ret move_list =>
          if negb (truthy move_list) then parsed_orders_for_return
          else
            match _validate_orders move_list possible_orders with
            | Raise _ => parsed_orders_for_return
            | Ret (validated_moves, invalid_moves_list) => validated_moves
            end
      end
  end.

End WithLibrary.

(** A location with a legal order. *)
Definition has_orders (item : pystr * list pystr) : bool := negb (is_empty (snd item)).

End Client.

(* ===================================================================== *)
(** ** [_parse_model_spec] and [load_model_client] *)
(* ===================================================================== *)

Module Factory.

(** [s.partition(sep)] for a separator that is not empty: the text before
    the first occurrence of [sep], whether there is one, and the text after
    it; without an occurrence the text itself and nothing after it. *)
Fixpoint partition (sep s : pystr) : pystr * bool * pystr :=
  match s with
  | [] => ([], false, [])
  | c :: r =>
      if startswith s sep then ([], true, skipn (length sep) s)
      else let '(before, found, after) := partition sep r in (c :: before, found, after)
  end.

(** [x or None] for a string [x]. *)
Definition or_none (x : pystr) : option pystr :=
  match x with
  | [] => None
  | _ => Some x
  end.

Record ModelSpec : Type := {
  prefix : option pystr;
  model : pystr;
  base : option pystr;
  key : option pystr
}.

(** The members of the enumeration [Prefix], in the order of the class,
    and their values. *)
Inductive Prefix : Type :=
  | OPENAI | OPENAI_REQUESTS | OPENAI_RESPONSES | ANTHROPIC
  | GEMINI | DEEPSEEK | OPENROUTER | TOGETHER.

Definition value (p : Prefix) : pystr :=
  match p with
  | OPENAI => str "openai"
  | OPENAI_REQUESTS => str "openai-requests"
  | OPENAI_RESPONSES => str "openai-responses"
  | ANTHROPIC => str "anthropic"
  | GEMINI => str "gemini"
  | DEEPSEEK => str "deepseek"
  | OPENROUTER => str "openrouter"
  | TOGETHER => str "together"
  end.

Definition members : list Prefix :=
  [OPENAI; OPENAI_REQUESTS; OPENAI_RESPONSES; ANTHROPIC; GEMINI; DEEPSEEK; OPENROUTER; TOGETHER].

(** [Prefix(s)]: the member with the value [s]; [None] is the [ValueError]
    of the enumeration. *)
Definition Prefix_of (s : pystr) : option Prefix :=
  List.find (fun p => pystr_eqb (value p) s) members.

(** The constructor that the factory calls, with its arguments. *)
Inductive client : Type :=
  | OpenAIClient (model_name : pystr) (prompts_dir base_url api_key : option pystr)
  | RequestsOpenAIClient (model_name : pystr) (prompts_dir base_url api_key : option pystr)
  | ClaudeClient (model_name : pystr) (prompts_dir : option pystr)
  | GeminiClient (model_name : pystr) (prompts_dir : option pystr)
  | DeepSeekClient (model_name : pystr) (prompts_dir : option pystr)
  | OpenRouterClient (model_name : pystr) (prompts_dir : option pystr)
  | TogetherAIClient (model_name : pystr) (prompts_dir : option pystr).

(** What a call of the factory does: it calls a constructor, or it raises
    before it does.  [OpenAIResponsesClient.__init__] takes a model name and
    a prompts directory only, and the factory calls it with the keyword
    argument [api_key]: the call raises [TypeError] when its arguments are
    bound. *)
Inductive built : Type :=
  | Constructs (c : client)
  | ValueError
  | TypeError
  | IndexError.

Section WithLower.

(** [str.lower]. *)
Variable lower : pystr -> pystr.

Definition _parse_model_spec (raw : pystr) : ModelSpec :=
  let raw := strip raw in
  let '(pre_hash, _, key_part) := partition (str "#") raw in
  let '(pre_at, _, base_part) := partition (str "@") pre_hash in
  let '(maybe_pref, sep, model_part) := partition (str ":") pre_at in
  let '(prefix, model) :=
    if sep then (Some (lower maybe_pref), model_part) else (None, maybe_pref) in
  {| prefix := prefix; model := model; base := or_none base_part; key := or_none key_part |}.

(** The heuristic path, for an identifier without a prefix. *)
Definition by_name (spec : ModelSpec) (prompts_dir : option pystr) : built :=
  let inline_key := key spec in
  let lower_id := lower (model spec) in
  if pystr_eqb lower_id (str "o3-pro") then TypeError
  else if startswith (model spec) (str "together-") then
    (* [spec.model.split("together-", 1)[1]] *)
    match partition (str "together-") (model spec) with
    | (_, true, after) => Constructs (TogetherAIClient after prompts_dir)
    | (_, false, _) => IndexError
    end
  else if contains lower_id (str "openrouter")
  then Constructs (OpenRouterClient (model spec) prompts_dir)
  else if contains lower_id (str "claude")
  then Constructs (ClaudeClient (model spec) prompts_dir)
  else if contains lower_id (str "gemini")
  then Constructs (GeminiClient (model spec) prompts_dir)
  else if contains lower_id (str "deepseek")
  then Constructs (DeepSeekClient (model spec) prompts_dir)
  else Constructs (OpenAIClient (model spec) prompts_dir (base spec) inline_key).

(** The explicit path, for a prefix that is a member of the enumeration. *)
Definition by_prefix (pref : Prefix) (spec : ModelSpec) (prompts_dir : option pystr)
  : built :=
  let inline_key := key spec in
  match pref with
  | OPENAI => Constructs (OpenAIClient (model spec) prompts_dir (base spec) inline_key)
  | OPENAI_REQUESTS =>
      Constructs (RequestsOpenAIClient (model spec) prompts_dir (base spec) inline_key)
  | OPENAI_RESPONSES => TypeError
  | ANTHROPIC => Constructs (ClaudeClient (model spec) prompts_dir)
  | GEMINI => Constructs (GeminiClient (model spec) prompts_dir)
  | DEEPSEEK => Constructs (DeepSeekClient (model spec) prompts_dir)
  | OPENROUTER => Constructs (OpenRouterClient (model spec) prompts_dir)
  | TOGETHER => Constructs (TogetherAIClient (model spec) prompts_dir)
  end.

(** [if spec.prefix]: a prefix that is given and not empty. *)
Definition given (x : option pystr) : option pystr :=
  match x with
  | Some [] => None
  | _ => x
  end.

Definition load_model_client (model_id : pystr) (prompts_dir : option pystr) : built :=
  let spec := _parse_model_spec model_id in
  match given (prefix spec) with
  | Some spec_prefix =>
      match Prefix_of (lower spec_prefix) with
      | None => ValueError
      | Some pref => by_prefix pref spec prompts_dir
      end
  | None => by_name spec prompts_dir
  end.

(** *** The documented syntax *)

(** An identifier that selects the client of the Responses API: by its
    prefix, or without a prefix by its name. *)
Definition selects_responses (spec : ModelSpec) : bool :=
  match given (prefix spec) with
  | Some spec_prefix =>
      match Prefix_of (lower spec_prefix) with
      | Some OPENAI_RESPONSES => true
      | _ => false
      end
  | None => pystr_eqb (lower (model spec)) (str "o3-pro")
  end.

End WithLower.

(** The identifier that the documentation writes for a specification:
    [prefix:model@base#key], each part but the model optional. *)
Definition render (spec : ModelSpec) : pystr :=
  match prefix spec with Some p => p ++ str ":" | None => [] end
  ++ model spec
  ++ match base spec with Some b => str "@" ++ b | None => [] end
  ++ match key spec with Some k => str "#" ++ k | None => [] end.

(** The head of an identifier: the prefix and the model. *)
Definition head (spec : ModelSpec) : pystr :=
  match prefix spec with Some p => p ++ str ":" | None => [] end ++ model spec.

(** The parts of a specification that its identifier keeps apart: no part
    holds the separator of a part that comes after it, nor a separator
    that is searched before its own, and a base or a key that is given is
    not empty. *)
Definition lacks (separators s : pystr) : bool :=
  forallb (fun c => negb (has_char c separators)) s.

Definition well_spelled (spec : ModelSpec) : bool :=
  match prefix spec with
  | Some p => lacks (str ":@#") p && lacks (str "@#") (model spec)
  | None => lacks (str ":@#") (model spec)
  end
  && match base spec with
     | Some b => negb (Orders.is_empty b) && lacks (str "#") b
     | None => true
     end
  && match key spec with
     | Some k => negb (Orders.is_empty k)
     | None => true
     end.

(** [str.lower] on ASCII letters. *)
Definition ascii_lower (s : pystr) : pystr :=
  List.map (fun c => if (65 <=? c) && (c <=? 90) then c + 32 else c) s.

(** The identifier of the documentation, and one in the style of another
    tool, whose colon belongs to the name of the model. *)
Definition documented : ModelSpec :=
  {| prefix := Some (str "openai"); model := str "llama-3-2-3b";
     base := Some (str "https://localhost:8000"); key := Some (str "myapikey") |}.


End Factory.

(* ===================================================================== *)
(** ** [get_conversation_reply]: from the response to the messages *)
(* ===================================================================== *)

Module Conversation.
Import Regex Extract Messages.

Local Open Scope regex_scope.

(** [\{\{(.*?)\}\}] and [\{.*?\}], searched with [re.DOTALL]; the second
    has no group, and its match is what [re.findall] returns. *)
Definition double_brace_pattern : regex :=
  Lit (str "{{") ·· Group (LazyStar any) ·· Lit (str "}}").

Definition object_pattern : regex :=
  Group (Lit (str "{") ·· LazyStar any ·· Lit (str "}")).

(** [re.findall(r, s)] for a pattern that matches no empty string: the
    group of every match, from the left and without overlap.  [fuel]
    bounds the number of steps; the length of the text is enough. *)
Fixpoint findall_from (fuel : nat) (r : regex) (s : pystr) : list pystr :=
  match fuel with
  | O => []
  | S fuel =>
      match s with
      | [] => []
      | _ :: s' =>
          match match_here r s with
          | Some (g, rest) =>
              if (length rest <? length s)%nat
              then g :: findall_from fuel r rest
              else findall_from fuel r s'
          | None => findall_from fuel r s'
          end
      end
  end.

Definition findall (r : regex) (s : pystr) : list pystr := findall_from (length s) r s.

Section WithDumps.

(** [json.dumps]. *)
Variable dumps : json -> pystr.

(** [[json.dumps(item) for item in data if isinstance(item, dict)]] *)
Definition dict_blocks (data : list json) : list pystr :=
  List.map dumps (List.filter is_dict data).

(** The blocks of the fallback parsing: the blocks between double braces;
    without any, the content of a fenced block; without a fence, every
    brace block of the response.  [json_blocks] is empty when this code
    runs. *)
Definition fallback_blocks (raw_response : pystr) : list pystr :=
  let double_brace_blocks := findall double_brace_pattern raw_response in
  if negb (Orders.is_empty double_brace_blocks)
  then List.map (fun block => str "{" ++ strip block ++ str "}") double_brace_blocks
  else
    match search code_fence_pattern raw_response with
    | Some group =>
        let potential_json_array_or_objects := strip group in
        match Json.loads potential_json_array_or_objects with
        | Some (JArr data) => dict_blocks data
        | Some (JObj data) => [dumps (JObj data)]
        | Some _ => []
        | None => findall object_pattern potential_json_array_or_objects
        end
    | None => findall object_pattern raw_response
    end.

(** The loop over [json_blocks]: a block that does not decode is
    skipped. *)
Definition parse_block (block : pystr) : list json :=
  match Json.loads (strip_trailing_commas (strip block)) with
  | Some parsed_message => [parsed_message]
  | None => []
  end.

Definition parse_blocks (json_blocks : list pystr) : list json :=
  flat_map parse_block json_blocks.

(** The value of [messages_to_return].  [responses] is the answer of the
    model and the same after the optional formatting step, or [None] when
    the prompt, the call or the formatting raised. *)
Definition get_conversation_reply (responses : option (pystr * pystr)) : list json :=
  match responses with
  | None => []
  | Some (raw_response, formatted_response) =>
      let data := Json.loads formatted_response in
      let parsed_messages :=
        match data with
        | Some (JArr items) => items
        | _ => []
        end in
      let raw_response :=
        match data with
        | Some _ => raw_response
        | None => formatted_response
        end in
      let parsed_messages :=
        if Orders.is_empty parsed_messages
        then parse_blocks (fallback_blocks raw_response)
        else parsed_messages in
      validated_reply parsed_messages
  end.

End WithDumps.

(** A value with no dictionary at its top or among the items of its
    top. *)
Definition flat (v : json) : bool :=
  match v with
  | JObj _ => false
  | JArr items => forallb (fun item => negb (is_dict item)) items
  | _ => true
  end.

End Conversation.


(* ===================================================================== *)
(** ** Facts about the visibility filter *)
(* ===================================================================== *)

Section VisibilityFacts.
Import Visibility.

Variable power_name : pystr.

Lemma getitem_present (msg : dict) (k : pystr) :
  has_field msg k -> exists v, dict_get msg k = Some v /\ getitem msg k = Ret v.
Proof.
  unfold has_field, getitem. destruct (dict_get msg k) as [v|]; [eauto | congruence].
Qed.

Lemma can_see_record (msg : dict) :
  is_record msg -> can_see msg power_name = Ret (visible_to power_name msg).
Proof.
  intros [Hs Hr].
  destruct (getitem_present _ _ Hs) as (s & Hs1 & Hs2).
  destruct (getitem_present _ _ Hr) as (r & Hr1 & Hr2).
  unfold can_see, visible_to, is_broadcast, field_is.
  rewrite Hs2, Hr2, Hs1, Hr1. cbn [bind].
  destruct (eq_str r (str "ALL")); [now rewrite !orb_true_r |].
  destruct (eq_str r (str "GLOBAL")); [now rewrite !orb_true_r |].
  destruct (eq_str s power_name); [reflexivity |].
  now rewrite !orb_false_r.
Qed.

Lemma can_see_broadcast (msg : dict) :
  is_broadcast msg = true -> can_see msg power_name = Ret true.
Proof.
  unfold is_broadcast, field_is, can_see, getitem.
  destruct (dict_get msg (str "recipient")) as [r|]; [| discriminate].
  cbn [bind]. intros H.
  destruct (eq_str r (str "ALL")); [reflexivity |].
  cbn [orb] in H. now rewrite H.
Qed.

Lemma visible_to_broadcast (msg : dict) :
  is_broadcast msg = true -> visible_to power_name msg = true.
Proof. unfold visible_to. intros ->. apply orb_true_r. Qed.

Lemma can_see_readable (msg : dict) :
  readable msg -> can_see msg power_name = Ret (visible_to power_name msg).
Proof.
  intros [Hb | Hr].
  - rewrite visible_to_broadcast by assumption. now apply can_see_broadcast.
  - now apply can_see_record.
Qed.

(** The loop appends, in order, the messages that pass the test. *)
Lemma visible_loop_filter (msgs : list dict) :
  Forall readable msgs ->
  forall visible,
    visible_loop msgs power_name visible
    = Ret (visible ++ List.filter (visible_to power_name) msgs).
Proof.
  induction 1 as [| msg rest Hmsg _ IH]; intros visible; cbn [visible_loop List.filter].
  - now rewrite app_nil_r.
  - rewrite (can_see_readable _ Hmsg). cbn [bind].
    destruct (visible_to power_name msg); rewrite IH; [| reflexivity].
    now rewrite <- app_assoc.
Qed.

End VisibilityFacts.

Section VisibilityClaims.
Import Visibility.

(** C3 (visibility completeness).  On a transcript of message records the
    filter returns the messages whose sender is the participant, whose
    recipient is the participant, or whose recipient is the broadcast
    marker: every such message, no other, each as often as the transcript
    has it and in the transcript's order. *)
Theorem visibility_completeness (transcript : list dict) (participant : pystr) :
  Forall is_record transcript ->
  get_visible_messages_for_power transcript participant
  = Ret (List.filter (visible_to participant) transcript).
Proof.
  intros Hrec. unfold get_visible_messages_for_power.
  rewrite visible_loop_filter; [reflexivity |].
  eapply Forall_impl; [exact Hrec |]. intros msg H. now right.
Qed.

(** C10 (two broadcast markers).  On every transcript the filter can read,
    it returns a list that holds each message addressed to ["ALL"] and each
    message addressed to ["GLOBAL"], whoever sent it and even when it has
    no sender at all. *)
Theorem broadcast_markers_visible (transcript : list dict) (participant : pystr) :
  Forall readable transcript ->
  exists visible,
    get_visible_messages_for_power transcript participant = Ret visible
    /\ forall msg, In msg transcript ->
         field_is msg (str "recipient") (str "ALL") = true
         \/ field_is msg (str "recipient") (str "GLOBAL") = true ->
         In msg visible.
Proof.
  intros Hread. unfold get_visible_messages_for_power.
  rewrite visible_loop_filter by assumption.
  eexists; split; [reflexivity |].
  intros msg Hin Hmark. cbn [app]. apply filter_In. split; [assumption |].
  apply visible_to_broadcast. unfold is_broadcast.
  destruct Hmark as [-> | ->]; [reflexivity | apply orb_true_r].
Qed.

Lemma visibility_completeness_witness :
  Forall is_record scenario
  /\ get_visible_messages_for_power scenario (str "C")
     = Ret (List.filter (visible_to (str "C")) scenario).
Proof.
  assert (H : Forall is_record scenario)
    by (repeat constructor; vm_compute; discriminate).
  split; [exact H | exact (visibility_completeness scenario (str "C") H)].
Defined.

Lemma broadcast_markers_visible_witness :
  exists visible,
    get_visible_messages_for_power (anonymous_global :: scenario) (str "D") = Ret visible
    /\ forall msg, In msg (anonymous_global :: scenario) ->
         field_is msg (str "recipient") (str "ALL") = true
         \/ field_is msg (str "recipient") (str "GLOBAL") = true ->
         In msg visible.
Proof.
  apply (broadcast_markers_visible (anonymous_global :: scenario) (str "D")).
  constructor; [left; reflexivity |].
  repeat constructor; vm_compute; discriminate.
Defined.

(** The specification's scenario: ["C"] sees all three messages, ["D"] only
    the broadcast. *)
Example scenario_seen_by_C :
  get_visible_messages_for_power scenario (str "C") = Ret scenario.
Proof. vm_compute. reflexivity. Qed.

Example scenario_seen_by_D :
  get_visible_messages_for_power scenario (str "D") = Ret [message "A" "ALL"].
Proof. vm_compute. reflexivity. Qed.

(** A message without a recipient makes the filter raise. *)
Example missing_recipient_raises :
  get_visible_messages_for_power [[(str "sender", JStr (str "A"))]] (str "A")
  = Raise KeyError.
Proof. vm_compute. reflexivity. Qed.

End VisibilityClaims.

(* ===================================================================== *)
(** ** Facts about message validation *)
(* ===================================================================== *)

Section MessageFacts.
Import Messages.

Lemma accepted_iff_record (msg : json) :
  well_shaped msg && negb (private_without_recipient msg) = is_message_record msg.
Proof.
  unfold well_shaped, private_without_recipient, is_message_record,
    field_present, is_private.
  destruct msg as [| | | | |d]; try reflexivity.
  unfold dict_has.
  destruct (dict_get d (str "message_type")) as [t|]; [| reflexivity].
  destruct (dict_get d (str "content")); [| reflexivity].
  destruct (eq_str t (str "private")); [| reflexivity].
  now destruct (dict_get d (str "recipient")).
Qed.

Lemma validate_loop_filter (parsed : list json) :
  forall validated,
    validate_loop parsed validated = validated ++ List.filter is_message_record parsed.
Proof.
  induction parsed as [| msg rest IH]; intros validated; cbn [validate_loop List.filter].
  - now rewrite app_nil_r.
  - rewrite <- accepted_iff_record.
    destruct (well_shaped msg); cbn [andb]; [| apply IH].
    destruct (private_without_recipient msg); cbn [negb]; rewrite IH; [reflexivity |].
    now rewrite <- app_assoc.
Qed.

(** C6 (message validation rule).  The validated list is the list of
    candidates that are message records, in extraction order: a candidate
    is kept iff it is a record with [message_type] and [content] and, when
    its [message_type] is ["private"], also [recipient]. *)
Theorem message_validation_rule (candidates : list json) :
  validated_reply candidates = List.filter is_message_record candidates.
Proof.
  unfold validated_reply.
  destruct candidates as [| msg rest]; [reflexivity |].
  rewrite validate_loop_filter. cbn [app].
  now destruct (List.filter is_message_record (msg :: rest)).
Qed.

(** The specification's scenario: a private message without a recipient is
    dropped, its neighbours are kept in order. *)
Example private_without_recipient_dropped :
  let public := JObj [(str "message_type", JStr (str "global")); (str "content", JStr (str "hello"))] in
  let orphan := JObj [(str "message_type", JStr (str "private")); (str "content", JStr (str "hi"))] in
  let private := JObj [(str "message_type", JStr (str "private")); (str "content", JStr (str "hi"));
                       (str "recipient", JStr (str "FRANCE"))] in
  validated_reply [public; orphan; JStr (str "noise"); private] = [public; private]
  /\ validated_reply [orphan] = [].
Proof. split; vm_compute; reflexivity. Qed.

End MessageFacts.

(* ===================================================================== *)
(** ** Facts about order validation *)
(* ===================================================================== *)

Section OrderFacts.
Import Orders.

Variable possible_orders : legal_actions.

Lemma eq_str_true (v : json) (s : pystr) : eq_str v s = true <-> v = JStr s.
Proof.
  destruct v; cbn; try (split; [discriminate | congruence]).
  unfold pystr_eqb. rewrite bool_decide_eq_true. split; congruence.
Qed.

(** A legal proposal is a string of the legal-action set. *)
Lemma is_legal_spec (v : json) :
  is_legal possible_orders v = true <-> exists a, v = JStr a /\ legal_in possible_orders a.
Proof.
  unfold is_legal, legal_in. rewrite existsb_exists. split.
  - intros ([loc orders_list] & Hin & Hex). apply existsb_exists in Hex as (a & Ha & Heq).
    apply eq_str_true in Heq. eauto 6.
  - intros (a & -> & loc & orders_list & Hin & Ha).
    exists (loc, orders_list). split; [assumption |].
    apply existsb_exists. exists a. split; [assumption |]. now apply eq_str_true.
Qed.

(** *** The first loop *)

Lemma covered_app (xs ys : list json) : covered (xs ++ ys) = covered xs ∪ covered ys.
Proof. unfold covered. rewrite flat_map_app. apply list_to_set_app_L. Qed.

Lemma covered_cons (x : json) (ys : list json) :
  covered (x :: ys) = covered [x] ∪ covered ys.
Proof. exact (covered_app [x] ys). Qed.

Lemma covered_nil : covered [] = ∅.
Proof. reflexivity. Qed.

Lemma accept_legal (st : progress) (v : json) :
  is_legal possible_orders v = true ->
  accept st v = Ret {| validated := validated st ++ [v];
                       invalid_moves_found := invalid_moves_found st;
                       used_locs := covered [v] ∪ used_locs st |}.
Proof.
  intros H. apply is_legal_spec in H as (a & -> & _).
  unfold accept, covered. cbn [flat_map resolved]. do 2 f_equal.
  destruct (order_location a); cbn; set_solver.
Qed.

(** The first loop never raises: it sorts the proposals into the accepted
    and the rejected ones and collects the covered locations. *)
Lemma check_moves_spec (moves : list json) :
  forall st,
    check_moves possible_orders moves st
    = Ret {| validated := validated st ++ accepted possible_orders moves;
             invalid_moves_found := invalid_moves_found st ++ rejected possible_orders moves;
             used_locs := covered (accepted possible_orders moves) ∪ used_locs st |}.
Proof.
  unfold accepted, rejected.
  induction moves as [| v rest IH]; intros st; cbn [check_moves List.filter].
  - rewrite !app_nil_r. destruct st. cbn [validated invalid_moves_found used_locs].
    do 2 f_equal. rewrite covered_nil. set_solver.
  - destruct (is_legal possible_orders v) eqn:Hv; cbn [negb].
    + rewrite (accept_legal _ _ Hv). cbn [bind]. rewrite IH.
      cbn [validated invalid_moves_found used_locs].
      rewrite <- app_assoc. do 2 f_equal.
      rewrite covered_cons. set_solver.
    + rewrite IH. cbn [reject validated invalid_moves_found used_locs].
      now rewrite <- app_assoc.
Qed.

(** *** The second loop and [fallback_orders] *)

Lemma fill_missing_spec (items : legal_actions) (used : gset pystr) :
  forall validated, fill_missing items used validated = validated ++ synthesized items used.
Proof.
  unfold synthesized, uncovered, needs_fallback, fallback_of.
  induction items as [| [loc orders_list] rest IH]; intros validated;
    cbn [fill_missing List.filter fst snd].
  - now rewrite app_nil_r.
  - destruct orders_list as [| first others]; cbn [is_empty negb].
    + rewrite andb_false_r. apply IH.
    + rewrite andb_true_r. destruct (bool_decide (loc ∉ used)); rewrite IH; [| reflexivity].
      cbn [flat_map snd]. now rewrite <- app_assoc.
Qed.

Lemma fallback_loop_spec (items : legal_actions) :
  forall fallback,
    List.map JStr (fallback_loop items fallback)
    = List.map JStr fallback ++ synthesized items ∅.
Proof.
  unfold synthesized, uncovered, needs_fallback, fallback_of.
  induction items as [| [loc orders_list] rest IH]; intros fallback;
    cbn [fallback_loop List.filter fst snd].
  - now rewrite app_nil_r.
  - destruct orders_list as [| first others]; cbn [is_empty negb].
    + rewrite andb_false_r. apply IH.
    + rewrite andb_true_r. rewrite bool_decide_eq_true_2 by set_solver.
      rewrite IH, map_app. cbn [flat_map snd List.map]. now rewrite <- app_assoc.
Qed.

(** The full fallback is what the second loop adds when nothing is covered. *)
Lemma fallback_orders_spec :
  List.map JStr (fallback_orders possible_orders) = synthesized possible_orders ∅.
Proof. unfold fallback_orders. now rewrite fallback_loop_spec. Qed.

(** *** The whole validator *)

(** Whatever the payload, validation returns; the validated orders are the
    accepted proposals followed by the fallbacks of the locations they do not
    cover, and the rejected proposals are reported beside them. *)
Lemma validate_orders_spec (moves : json) :
  let acc := accepted possible_orders (proposals moves) in
  _validate_orders moves possible_orders
  = Ret (acc ++ synthesized possible_orders (covered acc),
         rejected possible_orders (proposals moves)).
Proof.
  cbn zeta.
  assert (Hnolist : Ret (List.map JStr (fallback_orders possible_orders), [])
                    = Ret (accepted possible_orders []
                           ++ synthesized possible_orders (covered (accepted possible_orders [])),
                           rejected possible_orders [])).
  { cbn [accepted rejected List.filter app]. now rewrite covered_nil, fallback_orders_spec. }
  destruct moves as [| | | | items |]; try exact Hnolist.
  cbn [_validate_orders proposals]. rewrite check_moves_spec. cbn [bind].
  cbn [validated invalid_moves_found used_locs start app].
  rewrite fill_missing_spec.
  replace (covered (accepted possible_orders items) ∪ ∅)
    with (covered (accepted possible_orders items)) by set_solver.
  destruct (accepted possible_orders items) as [| v acc] eqn:Hacc.
  - cbn [app]. rewrite covered_nil, <- fallback_orders_spec.
    destruct (List.map JStr (fallback_orders possible_orders)) as [| f fs];
      cbn [is_empty andb negb]; [| reflexivity].
    now destruct (rejected possible_orders items).
  - reflexivity.
Qed.

Lemma validate_orders_proposals (moves : json) :
  _validate_orders moves possible_orders
  = _validate_orders (JArr (proposals moves)) possible_orders.
Proof. now rewrite (validate_orders_spec moves), (validate_orders_spec (JArr _)). Qed.

(** *** The fallback rule *)

Lemma filter_first {A : Type} (f : A -> bool) (l : list A) :
  match List.filter f l with
  | h :: _ => exists before after,
      l = before ++ h :: after /\ f h = true /\ Forall (fun x => f x = false) before
  | [] => Forall (fun x => f x = false) l
  end.
Proof.
  induction l as [| x l IH]; cbn [List.filter]; [constructor |].
  destruct (f x) eqn:Hx.
  - exists [], l. repeat split; [assumption | constructor].
  - destruct (List.filter f l) as [| h t].
    + now constructor.
    + destruct IH as (before & after & -> & Hh & Hbefore).
      exists (x :: before), after. repeat split; [assumption | now constructor].
Qed.

(** The code's choice is the first hold of the sequence, else its first
    action. *)
Lemma choose_first_hold_else_first (first : pystr) (others : list pystr) :
  first_hold_else_first (first :: others) (choose first (first :: others)).
Proof.
  unfold first_hold_else_first, choose.
  pose proof (filter_first is_hold (first :: others)) as H.
  destruct (List.filter is_hold (first :: others)) as [| h t].
  - right. split; [assumption | now exists others].
  - left. destruct H as (before & after & Heq & Hh & Hbefore). now exists before, after.
Qed.

Lemma first_hold_else_first_in (orders_list : list pystr) (a : pystr) :
  first_hold_else_first orders_list a -> In a orders_list.
Proof.
  intros [(before & after & -> & _) | (_ & rest & ->)].
  - apply in_or_app. right. now left.
  - now left.
Qed.

(** The rule leaves no choice. *)
Lemma first_hold_else_first_unique (orders_list : list pystr) (a b : pystr) :
  first_hold_else_first orders_list a -> first_hold_else_first orders_list b -> a = b.
Proof.
  intros Ha Hb. revert a b Ha Hb.
  assert (Hmix : forall a b,
    (exists before after, orders_list = before ++ a :: after /\ is_hold a = true
       /\ Forall (fun o => is_hold o = false) before) ->
    Forall (fun o => is_hold o = false) orders_list -> a = b).
  { intros a b (before & after & -> & Ha & _) Hall.
    rewrite Forall_app, Forall_cons in Hall. destruct Hall as (_ & Hna & _). congruence. }
  intros a b [Ha | Ha] [Hb | Hb].
  - destruct Ha as (b1 & a1 & E1 & Ha & F1), Hb as (b2 & a2 & E2 & Hb & F2).
    clear Hmix. subst orders_list. revert b2 E2 F2.
    induction b1 as [| x b1 IH]; intros [| y b2] E2 F2; cbn in E2.
    + congruence.
    + injection E2 as -> _. apply Forall_cons in F2 as [Hy _]. congruence.
    + injection E2 as -> _. apply Forall_cons in F1 as [Hx _]. congruence.
    + injection E2 as -> E2. apply Forall_cons in F1 as [_ F1].
      apply Forall_cons in F2 as [_ F2]. eauto.
  - destruct Hb as [Hb _]. exact (Hmix a b Ha Hb).
  - destruct Ha as [Ha _]. symmetry. exact (Hmix b a Hb Ha).
  - destruct Ha as (_ & ra & Ea), Hb as (_ & rb & Eb). congruence.
Qed.

Lemma fallback_of_chosen (item : pystr * list pystr) :
  snd item <> [] ->
  exists a, fallback_of item = [JStr a] /\ first_hold_else_first (snd item) a.
Proof.
  destruct item as [loc [| first others]]; cbn [snd]; [congruence | intros _].
  eexists. split; [reflexivity | apply choose_first_hold_else_first].
Qed.

Lemma uncovered_nonempty (used : gset pystr) (item : pystr * list pystr) :
  In item (uncovered possible_orders used) ->
  In item possible_orders /\ (fst item ∉ used) /\ snd item <> [].
Proof.
  unfold uncovered, needs_fallback. rewrite filter_In, andb_true_iff, bool_decide_eq_true.
  intros (Hin & Hused & Hne). repeat split; try assumption.
  intros E. now rewrite E in Hne.
Qed.

(** The fallbacks stand in one-to-one correspondence with the uncovered
    locations, each chosen by the rule at its location. *)
Lemma synthesized_chosen (used : gset pystr) :
  Forall2 (fun item v => exists a, v = JStr a /\ first_hold_else_first (snd item) a)
          (uncovered possible_orders used) (synthesized possible_orders used).
Proof.
  unfold synthesized.
  pose proof (uncovered_nonempty used) as Hun.
  induction (uncovered possible_orders used) as [| item items IH]; cbn [flat_map].
  - constructor.
  - destruct (fallback_of_chosen item) as (a & -> & Ha); [apply Hun; now left |].
    cbn [app]. constructor; [eauto |]. apply IH. intros i Hi. apply Hun. now right.
Qed.

Lemma Forall2_In_right {A B : Type} (R : A -> B -> Prop) (xs : list A) (ys : list B) (y : B) :
  Forall2 R xs ys -> In y ys -> exists x, In x xs /\ R x y.
Proof.
  induction 1 as [| x y' xs ys Hxy _ IH]; intros Hin; [contradiction |].
  destruct Hin as [<- | Hin].
  - exists x. split; [now left | assumption].
  - destruct (IH Hin) as (x' & Hx' & HR). exists x'. split; [now right | assumption].
Qed.

Lemma synthesized_legal (used : gset pystr) (v : json) :
  In v (synthesized possible_orders used) -> exists a, v = JStr a /\ legal_in possible_orders a.
Proof.
  intros Hv. pose proof (synthesized_chosen used) as H2.
  apply (Forall2_In_right _ _ _ _ H2) in Hv as (item & Hitem & a & -> & Ha).
  exists a. split; [reflexivity |].
  apply uncovered_nonempty in Hitem as (Hin & _).
  destruct item as [loc orders_list]. exists loc, orders_list.
  split; [assumption | now apply first_hold_else_first_in].
Qed.

End OrderFacts.

Section OrderClaims.
Import Orders.

(** C2 (legality invariant).  Whatever the payload and the legal-action
    set, validation returns, and every validated order is a string that
    occurs in the legal sequence of some location. *)
Theorem legality_invariant (moves : json) (possible_orders : legal_actions) :
  exists validated rejected,
    _validate_orders moves possible_orders = Ret (validated, rejected)
    /\ forall v, In v validated -> exists a, v = JStr a /\ legal_in possible_orders a.
Proof.
  rewrite validate_orders_spec. do 2 eexists. split; [reflexivity |].
  intros v Hv. apply in_app_or in Hv as [Hv | Hv].
  - apply filter_In in Hv as [_ Hv]. now apply is_legal_spec in Hv.
  - now apply synthesized_legal in Hv.
Qed.

(** C4, as the code has it.  A payload that is not a list is answered, without
    an exception, by the full fallback and an empty list of rejected
    actions. *)
Theorem not_a_list_short_circuit (moves : json) (possible_orders : legal_actions) :
  is_list moves = false ->
  _validate_orders moves possible_orders
  = Ret (List.map JStr (fallback_orders possible_orders), []).
Proof. destruct moves; try reflexivity. discriminate. Qed.

Lemma not_a_list_short_circuit_witness :
  is_list (JStr (str "A PAR H")) = false
  /\ _validate_orders (JStr (str "A PAR H")) paris_marseilles
     = Ret (List.map JStr (fallback_orders paris_marseilles), []).
Proof.
  split; [reflexivity |].
  apply (not_a_list_short_circuit (JStr (str "A PAR H")) paris_marseilles). reflexivity.
Defined.

(** C4, as stated, fails: a list that holds a number is not a sequence of
    strings, yet it goes through the loop, its legal item is kept and its
    number is reported as rejected. *)
Lemma list_with_number_is_checked :
  is_string_list (JArr [JStr (str "A PAR - BUR"); JNum (str "5")]) = false
  /\ _validate_orders (JArr [JStr (str "A PAR - BUR"); JNum (str "5")]) paris_marseilles
     = Ret ([JStr (str "A PAR - BUR"); JStr (str "A MAR H")], [JNum (str "5")])
  /\ _validate_orders (JArr [JStr (str "A PAR - BUR"); JNum (str "5")]) paris_marseilles
     <> Ret (List.map JStr (fallback_orders paris_marseilles), []).
Proof.
  split; [reflexivity | split].
  - vm_compute. reflexivity.
  - vm_compute. discriminate.
Qed.

(** C5 (fallback choice rule and its determinism).  The validated orders
    are the accepted proposals followed by one fallback for each uncovered
    location with a legal action, and the fallback of a location is the first
    hold of its sequence, else its first action.  For the empty proposal
    list the result is the full fallback, one such choice per location with
    a legal action; two validations give the same orders. *)
Theorem fallback_choice_rule (moves : list json) (possible_orders : legal_actions) :
  (exists fallbacks,
      _validate_orders (JArr moves) possible_orders
      = Ret (accepted possible_orders moves ++ fallbacks, rejected possible_orders moves)
      /\ Forall2 (fun item v => exists a, v = JStr a /\ first_hold_else_first (snd item) a)
                 (uncovered possible_orders (covered (accepted possible_orders moves)))
                 fallbacks)
  /\ (exists full,
      _validate_orders (JArr []) possible_orders = Ret (full, [])
      /\ Forall2 (fun item v => exists a, v = JStr a /\ first_hold_else_first (snd item) a)
                 (uncovered possible_orders ∅) full)
  /\ (forall once again,
      _validate_orders (JArr []) possible_orders = once ->
      _validate_orders (JArr []) possible_orders = again ->
      once = again).
Proof.
  split; [| split].
  - eexists. split; [apply (validate_orders_spec possible_orders (JArr moves)) |].
    apply synthesized_chosen.
  - eexists. split; [apply (validate_orders_spec possible_orders (JArr [])) |].
    cbn [accepted proposals List.filter]. rewrite covered_nil. apply synthesized_chosen.
  - intros once again <- <-. reflexivity.
Qed.

(** C9 (layout of the validated orders).  When a proposal is accepted, the
    validated orders are the accepted proposals in proposal order, followed
    by the fallbacks of the uncovered locations in the iteration order of the
    legal-action set. *)
Theorem accepted_then_fallbacks (moves : list json) (possible_orders : legal_actions) :
  accepted possible_orders moves <> [] ->
  _validate_orders (JArr moves) possible_orders
  = Ret (List.filter (is_legal possible_orders) moves
         ++ flat_map fallback_of
              (List.filter (needs_fallback (covered (accepted possible_orders moves)))
                           possible_orders),
         rejected possible_orders moves).
Proof. intros _. apply (validate_orders_spec possible_orders (JArr moves)). Qed.

Lemma accepted_then_fallbacks_witness :
  accepted paris_marseilles [JStr (str "A PAR - BUR"); JStr (str "A MAR - SPA")] <> []
  /\ _validate_orders (JArr [JStr (str "A PAR - BUR"); JStr (str "A MAR - SPA")]) paris_marseilles
     = Ret (List.filter (is_legal paris_marseilles)
              [JStr (str "A PAR - BUR"); JStr (str "A MAR - SPA")]
            ++ flat_map fallback_of
                 (List.filter
                    (needs_fallback
                       (covered (accepted paris_marseilles
                                   [JStr (str "A PAR - BUR"); JStr (str "A MAR - SPA")])))
                    paris_marseilles),
            rejected paris_marseilles [JStr (str "A PAR - BUR"); JStr (str "A MAR - SPA")]).
Proof.
  assert (H : accepted paris_marseilles [JStr (str "A PAR - BUR"); JStr (str "A MAR - SPA")] <> [])
    by (vm_compute; discriminate).
  split; [exact H | exact (accepted_then_fallbacks _ _ H)].
Defined.

(** The specification's scenarios. *)
Example scenario_orders :
  _validate_orders (JArr [JStr (str "A PAR - BUR"); JStr (str "A MAR - SPA")]) paris_marseilles
  = Ret ([JStr (str "A PAR - BUR"); JStr (str "A MAR H")], [JStr (str "A MAR - SPA")]).
Proof. vm_compute. reflexivity. Qed.

Example scenario_empty_proposal :
  _validate_orders (JArr []) paris_marseilles
  = Ret ([JStr (str "A PAR H"); JStr (str "A MAR H")], []).
Proof. vm_compute. reflexivity. Qed.

End OrderClaims.

Section Counting.
Import Orders.

Lemma actions_at_app (loc : pystr) (xs ys : list json) :
  actions_at loc (xs ++ ys) = (actions_at loc xs + actions_at loc ys)%nat.
Proof. unfold actions_at. now rewrite List.filter_app, length_app. Qed.

Lemma resolved_cases (v : json) : resolved v = [] \/ exists loc, resolved v = [loc].
Proof.
  destruct v as [| | |a| |]; cbn [resolved]; try (now left).
  destruct (order_location a); [right; eauto | now left].
Qed.

(** The actions of a list that resolve to a location are the occurrences of
    the location among the resolved locations. *)
Lemma actions_at_count (loc : pystr) (vs : list json) :
  actions_at loc vs
  = length (List.filter (fun l => bool_decide (l = loc)) (flat_map resolved vs)).
Proof.
  unfold actions_at, resolves_to.
  induction vs as [| v vs IH]; [reflexivity |].
  cbn [List.filter flat_map]. rewrite List.filter_app, length_app, <- IH.
  destruct (resolved_cases v) as [-> | [l ->]].
  - rewrite bool_decide_eq_false_2 by discriminate. reflexivity.
  - cbn [List.filter]. destruct (decide (l = loc)) as [-> | Hne].
    + rewrite !bool_decide_eq_true_2 by reflexivity. reflexivity.
    + rewrite !bool_decide_eq_false_2 by congruence. reflexivity.
Qed.

Lemma count_NoDup (loc : pystr) (ls : list pystr) :
  NoDup ls ->
  length (List.filter (fun l => bool_decide (l = loc)) ls)
  = if bool_decide (loc ∈ (list_to_set ls : gset pystr)) then 1%nat else 0%nat.
Proof.
  induction 1 as [| l ls Hl Hnd IH]; [reflexivity |].
  cbn [List.filter list_to_set]. destruct (decide (l = loc)) as [-> | Hne].
  - rewrite bool_decide_eq_true_2 by reflexivity. cbn [length]. rewrite IH.
    rewrite bool_decide_eq_false_2 by (rewrite elem_of_list_to_set; exact Hl).
    rewrite bool_decide_eq_true_2 by set_solver. reflexivity.
  - rewrite bool_decide_eq_false_2 by assumption. rewrite IH.
    erewrite bool_decide_ext; [reflexivity | set_solver].
Qed.

End Counting.

Section Coverage.
Import Orders.

Variable possible_orders : legal_actions.
Hypothesis Hwf : well_formed possible_orders.

(** Under well-formedness an accepted proposal resolves to the location it
    is legal at. *)
Lemma legal_resolved (a : pystr) :
  legal_in possible_orders a ->
  exists loc orders_list,
    In (loc, orders_list) possible_orders /\ In a orders_list /\ resolved (JStr a) = [loc].
Proof.
  intros (loc & orders_list & Hin & Ha). exists loc, orders_list.
  repeat split; try assumption.
  cbn [resolved]. destruct Hwf as [_ Hres]. now rewrite (Hres _ _ _ Hin Ha).
Qed.

Lemma entry_unique_in (items : legal_actions) (loc : pystr) (o1 o2 : list pystr) :
  NoDup (List.map fst items) ->
  In (loc, o1) items -> In (loc, o2) items -> o1 = o2.
Proof.
  induction items as [| [k o] items IH]; cbn [List.map fst In]; [tauto |].
  intros Hnd H1 H2. apply NoDup_cons in Hnd as [Hk Hnd].
  assert (Hkey : forall o', In (k, o') items -> False).
  { intros o' Hin. apply Hk. apply list_elem_of_In.
    apply (in_map fst) in Hin. exact Hin. }
  destruct H1 as [E1 | H1], H2 as [E2 | H2].
  - congruence.
  - injection E1 as -> ->. now apply Hkey in H2.
  - injection E2 as -> ->. now apply Hkey in H1.
  - eauto.
Qed.

Lemma entry_unique (loc : pystr) (o1 o2 : list pystr) :
  In (loc, o1) possible_orders -> In (loc, o2) possible_orders -> o1 = o2.
Proof. apply entry_unique_in, Hwf. Qed.

(** A location covered by the accepted proposals has a legal action. *)
Lemma covered_has_orders (moves : list json) (loc : pystr) (orders_list : list pystr) :
  In (loc, orders_list) possible_orders ->
  loc ∈ covered (accepted possible_orders moves) ->
  orders_list <> [].
Proof.
  intros Hin Hcov. unfold covered in Hcov.
  apply elem_of_list_to_set, list_elem_of_In, in_flat_map in Hcov as (v & Hv & Hloc).
  apply filter_In in Hv as [_ Hv]. apply is_legal_spec in Hv as (a & -> & Ha).
  apply legal_resolved in Ha as (loc' & orders' & Hin' & Ha & Hres).
  rewrite Hres in Hloc. destruct Hloc as [<- | []].
  rewrite (entry_unique _ _ _ Hin Hin'). intros ->. contradiction.
Qed.

(** The fallbacks that resolve to a location are the fallbacks of the
    entries of that location. *)
Lemma fallbacks_at (loc : pystr) (items : legal_actions) :
  (forall item, In item items -> In item possible_orders) ->
  actions_at loc (flat_map fallback_of items)
  = length (List.filter (fun item => bool_decide (fst item = loc) && negb (is_empty (snd item)))
                        items).
Proof.
  induction items as [| [k orders_list] items IH]; intros Hsub; [reflexivity |].
  cbn [flat_map List.filter fst snd]. rewrite actions_at_app, IH
    by (intros item Hitem; apply Hsub; now right).
  destruct orders_list as [| first others]; cbn [is_empty negb fallback_of snd].
  - rewrite andb_false_r. reflexivity.
  - rewrite andb_true_r.
    assert (Hres : resolved (JStr (choose first (first :: others))) = [k]).
    { destruct (legal_resolved (choose first (first :: others))) as (l & o & Hin & Ha & Hres).
      - exists k, (first :: others). split; [apply Hsub; now left |].
        apply first_hold_else_first_in, choose_first_hold_else_first.
      - destruct Hwf as [_ Hloc].
        assert (Hk : order_location (choose first (first :: others)) = Some k).
        { apply (Hloc k (first :: others)); [apply Hsub; now left |].
          apply first_hold_else_first_in, choose_first_hold_else_first. }
        cbn [resolved]. now rewrite Hk. }
    unfold actions_at at 1. cbn [List.filter]. unfold resolves_to. rewrite Hres.
    destruct (decide (k = loc)) as [-> | Hne].
    + rewrite !bool_decide_eq_true_2 by reflexivity. reflexivity.
    + rewrite !bool_decide_eq_false_2 by congruence. reflexivity.
Qed.

Lemma filter_none {A : Type} (f : A -> bool) (l : list A) :
  (forall x, In x l -> f x = false) -> List.filter f l = [].
Proof.
  induction l as [| x l IH]; intros H; [reflexivity |].
  cbn [List.filter]. rewrite (H x) by (now left). apply IH. intros y Hy. apply H. now right.
Qed.

Lemma entries_at_in (items : legal_actions) (loc : pystr) (orders_list : list pystr)
    (used : gset pystr) :
  NoDup (List.map fst items) ->
  In (loc, orders_list) items ->
  length (List.filter (fun item => bool_decide (fst item = loc) && negb (is_empty (snd item)))
                      (uncovered items used))
  = if bool_decide (loc ∉ used) && negb (is_empty orders_list) then 1%nat else 0%nat.
Proof.
  unfold uncovered.
  induction items as [| [k o] items IH]; cbn [List.map fst In]; [tauto |].
  intros Hnd Hin. apply NoDup_cons in Hnd as [Hk Hnd].
  assert (Hrest : forall item, In item items -> fst item <> k).
  { intros item Hitem E. apply Hk. apply list_elem_of_In. rewrite <- E. now apply in_map. }
  cbn [List.filter]. destruct Hin as [E | Hin].
  - injection E as -> ->.
    assert (Hnone : List.filter
              (fun item => bool_decide (fst item = loc) && negb (is_empty (snd item)))
              (List.filter (needs_fallback used) items) = []).
    { apply filter_none. intros item Hitem. apply filter_In in Hitem as [Hitem _].
      rewrite bool_decide_eq_false_2 by (now apply Hrest). reflexivity. }
    unfold needs_fallback at 1. cbn [fst snd].
    destruct (bool_decide (loc ∉ used) && negb (is_empty orders_list)) eqn:Hneed.
    + cbn [List.filter fst snd]. rewrite bool_decide_eq_true_2 by reflexivity.
      apply andb_true_iff in Hneed as [_ ->]. cbn [andb length]. now rewrite Hnone.
    + now rewrite Hnone.
  - rewrite <- (IH Hnd Hin).
    destruct (needs_fallback used (k, o)); [| reflexivity].
    cbn [List.filter fst]. rewrite bool_decide_eq_false_2; [reflexivity |].
    intros ->. apply (Hrest _ Hin). reflexivity.
Qed.

Lemma entries_at (loc : pystr) (orders_list : list pystr) (used : gset pystr) :
  In (loc, orders_list) possible_orders ->
  length (List.filter (fun item => bool_decide (fst item = loc) && negb (is_empty (snd item)))
                      (uncovered possible_orders used))
  = if bool_decide (loc ∉ used) && negb (is_empty orders_list) then 1%nat else 0%nat.
Proof. apply entries_at_in, Hwf. Qed.

End Coverage.

Section CoverageClaim.
Import Orders.

(** C1, as stated, fails: two legal proposals for one unit are both kept,
    so Paris gets two orders. *)
Lemma two_orders_for_paris :
  _validate_orders (JArr [JStr (str "A PAR H"); JStr (str "A PAR - BUR")]) paris_marseilles
  = Ret ([JStr (str "A PAR H"); JStr (str "A PAR - BUR"); JStr (str "A MAR H")], [])
  /\ ~ total_coverage paris_marseilles
        [JStr (str "A PAR H"); JStr (str "A PAR - BUR"); JStr (str "A MAR H")].
Proof.
  split; [vm_compute; reflexivity |].
  intros H. specialize (H (str "PAR") [str "A PAR H"; str "A PAR - BUR"]).
  assert (Hin : In (str "PAR", [str "A PAR H"; str "A PAR - BUR"]) paris_marseilles)
    by (now left).
  apply H in Hin. vm_compute in Hin. discriminate.
Qed.

(** C1, amended.  For a well-formed legal-action set and a payload whose
    accepted proposals resolve to pairwise different locations, validation
    returns orders that hold exactly one action for each location with a
    legal action and none for a location without. *)
Theorem total_coverage_one_per_location (moves : json) (possible_orders : legal_actions) :
  well_formed possible_orders ->
  NoDup (flat_map resolved (accepted possible_orders (proposals moves))) ->
  exists validated rejected,
    _validate_orders moves possible_orders = Ret (validated, rejected)
    /\ total_coverage possible_orders validated.
Proof.
  intros Hwf Hone. rewrite validate_orders_spec. do 2 eexists. split; [reflexivity |].
  intros loc orders_list Hin.
  set (acc := accepted possible_orders (proposals moves)) in *.
  rewrite actions_at_app, actions_at_count, (count_NoDup _ _ Hone).
  unfold synthesized. rewrite (fallbacks_at _ Hwf)
    by (intros item Hitem; now apply uncovered_nonempty in Hitem).
  rewrite (entries_at _ Hwf _ _ _ Hin).
  fold (covered acc).
  destruct (decide (loc ∈ covered acc)) as [Hcov | Hcov].
  - rewrite bool_decide_eq_true_2 by assumption.
    rewrite (bool_decide_eq_false_2 (loc ∉ covered acc)) by tauto.
    pose proof (covered_has_orders _ Hwf _ _ _ Hin Hcov) as Hne.
    destruct orders_list; [congruence | reflexivity].
  - rewrite bool_decide_eq_false_2 by assumption.
    rewrite (bool_decide_eq_true_2 (loc ∉ covered acc)) by assumption.
    now destruct orders_list.
Qed.

Lemma paris_marseilles_well_formed : well_formed paris_marseilles.
Proof.
  split.
  - apply (bool_decide_unpack _). vm_compute. exact I.
  - intros loc orders_list a Hin Ha. cbn [paris_marseilles In] in Hin.
    destruct Hin as [E | [E | []]]; injection E as <- <-;
      cbn [In] in Ha; repeat (destruct Ha as [<- | Ha]; [vm_compute; reflexivity |]);
      contradiction.
Qed.

Lemma total_coverage_one_per_location_witness :
  exists validated rejected,
    _validate_orders (JArr [JStr (str "A PAR - BUR"); JStr (str "A MAR - SPA")]) paris_marseilles
    = Ret (validated, rejected)
    /\ total_coverage paris_marseilles validated.
Proof.
  apply (total_coverage_one_per_location
           (JArr [JStr (str "A PAR - BUR"); JStr (str "A MAR - SPA")]) paris_marseilles).
  - exact paris_marseilles_well_formed.
  - apply (bool_decide_unpack _). vm_compute. exact I.
Defined.

End CoverageClaim.

(* ===================================================================== *)
(** ** Facts about strings *)
(* ===================================================================== *)

Section StringFacts.


Lemma lstrip_head (c : N) (r : pystr) : isspace c = false -> lstrip (c :: r) = c :: r.
Proof. cbn [lstrip]. now intros ->. Qed.





Lemma split_on_cur (sep : N) (s cur : pystr) :
  split_on sep s cur
  = match split_on sep s [] with
    | first :: rest => (cur ++ first) :: rest
    | [] => []
    end.
Proof.
  revert cur. induction s as [| c s IH]; intros cur; cbn [split_on].
  - now rewrite app_nil_r.
  - destruct (c =? sep); [now rewrite app_nil_r |].
    rewrite IH, (IH ([] ++ [c])). destruct (split_on sep s []); [reflexivity |].
    now rewrite <- app_assoc.
Qed.




End StringFacts.

(* ===================================================================== *)
(** ** Facts about the trailing-comma rewrite *)
(* ===================================================================== *)

Section TrailingCommaFacts.
Import Regex Extract.

Lemma closer_no_blank (c : N) : is_closer c = true -> isspace c = false.
Proof.
  unfold is_closer. intros H. apply orb_true_iff in H as [H | H];
    apply N.eqb_eq in H; subst c; reflexivity.
Qed.

Lemma one_of_closer (c : N) : one_of (str "}]") c = is_closer c.
Proof.
  unfold one_of, is_closer. change (str "}]") with [chr "}"; chr "]"].
  cbn [existsb]. now rewrite orb_false_r.
Qed.

(** A greedy star of blanks before something that no blank starts: the
    engine takes all the blanks. *)
Lemma star_blanks {R : Type} (k : pystr -> option pystr -> option R) (cap : option pystr) :
  (forall c r, isspace c = true -> k (c :: r) cap = None) ->
  forall s, matches (Star isspace) s cap k = k (lstrip s) cap.
Proof.
  intros Hk. cbn [matches]. induction s as [| c s IH]; [reflexivity |].
  cbn [lstrip]. destruct (isspace c) eqn:Hc; [| reflexivity].
  rewrite IH. destruct (k (lstrip s) cap); [reflexivity |]. now apply Hk.
Qed.

(** The engine finds the pattern at the head of a text exactly when a
    trailing comma is there. *)
Lemma matches_seq {R : Type} (r1 r2 : regex) (s : pystr) (cap : option pystr)
    (k : pystr -> option pystr -> option R) :
  matches (Seq r1 r2) s cap k = matches r1 s cap (fun s' cap' => matches r2 s' cap' k).
Proof. reflexivity. Qed.

Lemma matches_char {R : Type} (a : string) (c : N) (s : pystr) (cap : option pystr)
    (k : pystr -> option pystr -> option R) :
  str a = [c] ->
  matches (Lit (str a)) s cap k
  = match s with
    | c' :: s' => if c' =? c then k s' cap else None
    | [] => None
    end.
Proof.
  intros ->. cbn [matches startswith length skipn]. destruct s as [| c' s']; [reflexivity |].
  rewrite N.eqb_sym. now destruct (c' =? c).
Qed.

Lemma matches_closer {R : Type} (s : pystr) (cap : option pystr)
    (k : pystr -> option pystr -> option R) :
  matches (Group (Class (one_of (str "}]")))) s cap k
  = match s with
    | d :: s' => if is_closer d then k s' (Some [d]) else None
    | [] => None
    end.
Proof.
  cbn [matches]. destruct s as [| d s']; [reflexivity |].
  rewrite one_of_closer. destruct (is_closer d); [| reflexivity].
  cbn [length]. replace (S (length s') - length s')%nat with 1%nat by lia. reflexivity.
Qed.

Lemma match_here_trailing_comma (s : pystr) :
  match_here trailing_comma s
  = match comma_here s with
    | Some (d, rest) => Some ([d], rest)
    | None => None
    end.
Proof.
  unfold match_here, trailing_comma, comma_here.
  rewrite matches_seq, (matches_char "," (chr ",")) by reflexivity.
  destruct s as [| c r]; [reflexivity |].
  destruct (c =? chr ","); [| reflexivity].
  rewrite matches_seq, star_blanks.
  - rewrite matches_closer. destruct (lstrip r) as [| d r']; [reflexivity |].
    now destruct (is_closer d).
  - intros d r' Hd. rewrite matches_closer.
    destruct (is_closer d) eqn:Hclose; [| reflexivity].
    apply closer_no_blank in Hclose. congruence.
Qed.

Lemma comma_here_shorter (s : pystr) (d : N) (rest : pystr) :
  comma_here s = Some (d, rest) -> (length rest < length s)%nat.
Proof.
  unfold comma_here. destruct s as [| c r]; [discriminate |].
  destruct (c =? chr ","); [| discriminate].
  assert (Hle : forall r, (length (lstrip r) <= length r)%nat).
  { clear. induction r as [| c r IH]; cbn [lstrip length]; [lia |].
    destruct (isspace c); cbn [length]; lia. }
  specialize (Hle r). destruct (lstrip r) as [| d' r']; [discriminate |].
  destruct (is_closer d'); [| discriminate]. intros [= <- <-]. cbn [length] in *. lia.
Qed.





(** *** Blanks before a closing bracket *)






End TrailingCommaFacts.

(* ===================================================================== *)
(** ** Facts about the comment pass *)
(* ===================================================================== *)

Section CommentFacts.
Import Extract.











End CommentFacts.

(* ===================================================================== *)
(** ** Facts about the decoder: what it reads *)
(* ===================================================================== *)

Section DecoderReads.
Import Json.

Lemma lex_app (st : lex_state) (a b : pystr) :
  lex st (a ++ b) = match lex st a with Some st' => lex st' b | None => None end.
Proof.
  revert st. induction a as [| c a IH]; intros st; [reflexivity |].
  cbn [app lex]. destruct (lex_step st c); [apply IH | reflexivity].
Qed.

Lemma reads_here (st : lex_state) (s : pystr) : reads 0 st s s st.
Proof. exists []. split; [reflexivity | split; [cbn [length]; lia | reflexivity]]. Qed.

Lemma reads_then (k1 k2 : nat) (st st1 st2 : lex_state) (s r r' : pystr) :
  reads k1 st s r st1 -> reads k2 st1 r r' st2 -> reads (k1 + k2) st s r' st2.
Proof.
  intros (a & -> & Ha & Hla) (b & -> & Hb & Hlb). exists (a ++ b).
  split; [| split].
  - now rewrite app_assoc.
  - rewrite length_app. lia.
  - now rewrite lex_app, Hla.
Qed.

Lemma reads_less (k k' : nat) (st st' : lex_state) (s r : pystr) :
  (k' <= k)%nat -> reads k st s r st' -> reads k' st s r st'.
Proof.
  intros Hk (a & -> & Ha & Hl). exists a.
  split; [reflexivity | split; [lia | assumption]].
Qed.

Lemma reads_char (st st' : lex_state) (c : N) (r : pystr) :
  lex_step st c = Some st' -> reads 1 st (c :: r) r st'.
Proof.
  intros H. exists [c].
  split; [reflexivity | split; [cbn [length]; lia | cbn [lex]; now rewrite H]].
Qed.

Lemma reads_length (k : nat) (st st' : lex_state) (s r : pystr) :
  reads k st s r st' -> (length r + k <= length s)%nat.
Proof. intros (a & -> & Ha & _). rewrite length_app. lia. Qed.

Lemma plain_step (c : N) : plain c = true -> lex_step Outside c = Some Outside.
Proof.
  unfold plain, lex_step.
  destruct (c =? dquote), (c =? chr "\"), (c =? chr "/"); cbn; congruence.
Qed.

Lemma reads_plain (s r : pystr) :
  forallb plain s = true -> reads (length s) Outside (s ++ r) r Outside.
Proof.
  intros H. exists s. split; [reflexivity | split; [lia |]].
  induction s as [| c s IH]; [reflexivity |]. cbn [forallb] in H.
  apply andb_true_iff in H as [Hc H]. cbn [lex]. rewrite (plain_step _ Hc). auto.
Qed.

Lemma ws_plain (c : N) : is_ws c = true -> plain c = true.
Proof.
  unfold is_ws. intros H.
  repeat (apply orb_true_iff in H as [H | H]); apply N.eqb_eq in H; subst c; reflexivity.
Qed.

Lemma skip_ws_reads (s : pystr) : reads 0 Outside s (skip_ws s) Outside.
Proof.
  induction s as [| c s IH]; [apply reads_here |].
  cbn [skip_ws]. destruct (is_ws c) eqn:Hc; [| apply reads_here].
  apply (reads_less 1); [lia |].
  eapply (reads_then 1 0 _ Outside); [| exact IH].
  apply reads_char. now apply plain_step, ws_plain.
Qed.

Lemma startswith_split (s p : pystr) :
  startswith s p = true -> s = p ++ skipn (length p) s.
Proof.
  revert s. induction p as [| a p IH]; intros s; [reflexivity |].
  destruct s as [| b s]; [discriminate |]. cbn [startswith length skipn app].
  intros H. apply andb_true_iff in H as [Hab H]. apply N.eqb_eq in Hab. subst b.
  f_equal. now apply IH.
Qed.

(** *** Strings *)

Lemma hex_inside (c : N) (v : N) : hex_value c = Some v -> lex_step Inside c = Some Inside.
Proof.
  unfold hex_value, is_digit, lex_step. intros H.
  destruct (N.eqb_spec c dquote) as [-> | _]; [discriminate |].
  destruct (N.eqb_spec c (chr "\")) as [-> | _]; [discriminate |].
  destruct (N.ltb_spec c 32) as [Hlt | _]; [| reflexivity].
  exfalso. revert H.
  destruct (N.leb_spec 48 c); [lia |]. cbn [andb].
  destruct (N.leb_spec 65 c); [lia |]. cbn [andb].
  destruct (N.leb_spec 97 c); [lia |]. discriminate.
Qed.

Lemma hex4_inside (a b c d v : N) (r : pystr) :
  hex4 a b c d = Some v -> reads 4 Inside (a :: b :: c :: d :: r) r Inside.
Proof.
  unfold hex4. intros H.
  destruct (hex_value a) eqn:Ha; [| discriminate].
  destruct (hex_value b) eqn:Hb; [| discriminate].
  destruct (hex_value c) eqn:Hc; [| discriminate].
  destruct (hex_value d) eqn:Hd; [| discriminate].
  exists [a; b; c; d]. split; [reflexivity | split; [cbn [length]; lia |]]. cbn [lex].
  now rewrite (hex_inside _ _ Ha), (hex_inside _ _ Hb), (hex_inside _ _ Hc), (hex_inside _ _ Hd).
Qed.

Lemma unescape_inside (e c : N) : unescape e = Some c -> lex_step Escaped e = Some Inside.
Proof.
  unfold unescape. intros H. cbn [lex_step].
  repeat match type of H with
         | (if ?e =? ?k then _ else _) = _ =>
             destruct (N.eqb_spec e k) as [-> | _]; [reflexivity |]
         end.
  discriminate.
Qed.

(** [scanstring] reads a string literal to its closing quote. *)
Lemma scanstring_reads (n : nat) :
  forall s chunks pending d rest,
    (length s <= n)%nat ->
    scanstring s chunks pending = Some (d, rest) ->
    reads 1 Inside s rest Outside.
Proof.
  induction n as [| n IH]; intros s chunks pending d rest Hn H.
  - destruct s; [discriminate | cbn [length] in Hn; lia].
  - destruct s as [| c r]; [discriminate |]. cbn [scanstring] in H. cbn [length] in Hn.
    destruct (N.eqb_spec c dquote) as [-> | Hq].
    { injection H as _ <-. now apply reads_char. }
    destruct (N.eqb_spec c (chr "\")) as [-> | Hb].
    + destruct r as [| esc r1]; [discriminate |]. cbn [length] in Hn.
      destruct (N.eqb_spec esc (chr "u")) as [-> | Hu].
      * destruct r1 as [| h1 [| h2 [| h3 [| h4 r2]]]]; try discriminate.
        cbn [length] in Hn.
        destruct (hex4 h1 h2 h3 h4) as [uni |] eqn:Hhex; [| discriminate].
        assert (Hrest : reads 1 Inside r2 rest Outside).
        { destruct pending as [high |];
            repeat match type of H with
                   | (if ?b then _ else _) = _ => destruct b
                   end; (eapply IH; [| exact H]); lia. }
        apply (reads_less (1 + (1 + (4 + 1)))); [lia |].
        eapply (reads_then 1 _ _ Escaped); [now apply reads_char |].
        eapply (reads_then 1 _ _ Inside); [now apply reads_char |].
        eapply (reads_then 4 1 _ Inside); [| exact Hrest].
        eapply hex4_inside. exact Hhex.
      * destruct (unescape esc) as [char |] eqn:Hesc; [| discriminate].
        apply (reads_less (1 + (1 + 1))); [lia |].
        eapply (reads_then 1 _ _ Escaped); [now apply reads_char |].
        eapply (reads_then 1 1 _ Inside).
        -- apply reads_char. eapply unescape_inside. exact Hesc.
        -- eapply IH; [| exact H]. lia.
    + destruct (c <? 32) eqn:Hctl; [discriminate |].
      apply (reads_less (1 + 1)); [lia |].
      eapply (reads_then 1 1 _ Inside).
      * apply reads_char. cbn [lex_step].
        rewrite (proj2 (N.eqb_neq _ _) Hq), (proj2 (N.eqb_neq _ _) Hb), Hctl. reflexivity.
      * eapply IH; [| exact H]. lia.
Qed.

(** *** Numbers and constants *)

Lemma number_char_plain (c : N) : number_char c = true -> plain c = true.
Proof.
  unfold number_char, plain, is_digit. intros H.
  destruct (N.eqb_spec c dquote) as [-> | _]; [discriminate |].
  destruct (N.eqb_spec c (chr "\")) as [-> | _]; [discriminate |].
  destruct (N.eqb_spec c (chr "/")) as [-> | _]; [discriminate | reflexivity].
Qed.

Lemma digit_number_char (c : N) : is_digit c = true -> number_char c = true.
Proof. unfold number_char. now intros ->. Qed.

Lemma span_digits_split (s : pystr) :
  s = fst (span_digits s) ++ snd (span_digits s)
  /\ forallb number_char (fst (span_digits s)) = true.
Proof.
  induction s as [| c s [IH1 IH2]]; [split; reflexivity |].
  cbn [span_digits]. destruct (is_digit c) eqn:Hc; [| split; reflexivity].
  destruct (span_digits s) as [d rest]. cbn [fst snd app forallb] in *.
  split; [now f_equal | now rewrite digit_number_char].
Qed.

Lemma scan_int_split (s i r : pystr) :
  scan_int s = Some (i, r) -> s = i ++ r /\ i <> [] /\ forallb number_char i = true.
Proof.
  unfold scan_int. destruct s as [| c s]; [discriminate |].
  destruct (N.eqb_spec c (chr "0")) as [-> | _].
  - intros [= <- <-]. repeat split. discriminate.
  - destruct (is_digit c) eqn:Hc; [| discriminate].
    pose proof (span_digits_split s) as [H1 H2]. destruct (span_digits s) as [d rest].
    cbn [fst snd] in *. intros [= <- <-]. cbn [app forallb].
    repeat split; [now f_equal | discriminate | now rewrite digit_number_char].
Qed.

Lemma scan_frac_split (s : pystr) :
  s = fst (scan_frac s) ++ snd (scan_frac s)
  /\ forallb number_char (fst (scan_frac s)) = true.
Proof.
  unfold scan_frac. destruct s as [| c s]; [split; reflexivity |].
  destruct (N.eqb_spec c (chr ".")) as [-> | _]; [| split; reflexivity].
  pose proof (span_digits_split s) as [H1 H2]. destruct (span_digits s) as [[| d0 d] rest];
    cbn [fst snd app forallb] in *; [split; reflexivity |].
  split; [now f_equal | exact H2].
Qed.

Lemma scan_exp_split (s : pystr) :
  s = fst (scan_exp s) ++ snd (scan_exp s)
  /\ forallb number_char (fst (scan_exp s)) = true.
Proof.
  unfold scan_exp. destruct s as [| e s]; [split; reflexivity |].
  destruct ((e =? chr "e") || (e =? chr "E")) eqn:He; [| split; reflexivity].
  assert (Hne : number_char e = true).
  { unfold number_char. apply orb_true_iff in He as [-> | ->];
      now rewrite ?orb_true_r. }
  destruct s as [| sign s']; [split; reflexivity |].
  destruct ((sign =? chr "-") || (sign =? chr "+")) eqn:Hs.
  - assert (Hns : number_char sign = true).
    { unfold number_char. apply orb_true_iff in Hs as [-> | ->];
        now rewrite ?orb_true_r. }
    pose proof (span_digits_split s') as [H1 H2].
    destruct (span_digits s') as [[| d0 d] rest]; cbn [fst snd app forallb] in *;
      [split; reflexivity |].
    split; [now do 2 f_equal | now rewrite Hne, Hns].
  - pose proof (span_digits_split (sign :: s')) as [H1 H2].
    destruct (span_digits (sign :: s')) as [[| d0 d] rest]; cbn [fst snd app forallb] in *;
      [split; reflexivity |].
    split; [now f_equal | now rewrite Hne].
Qed.

Lemma scan_unsigned_split (sign s lexeme rest : pystr) :
  forallb number_char sign = true ->
  scan_unsigned sign s = Some (lexeme, rest) ->
  sign ++ s = lexeme ++ rest /\ lexeme <> [] /\ forallb number_char lexeme = true.
Proof.
  unfold scan_unsigned. intros Hsign.
  destruct (scan_int s) as [[i r1] |] eqn:Hi; [| discriminate].
  apply scan_int_split in Hi as (-> & Hne & Hi).
  pose proof (scan_frac_split r1) as [Hf1 Hf2]. destruct (scan_frac r1) as [f r2].
  pose proof (scan_exp_split r2) as [He1 He2]. destruct (scan_exp r2) as [e r3].
  cbn [fst snd] in *. intros [= <- <-]. subst r1 r2.
  repeat split.
  - now rewrite <- !app_assoc.
  - destruct sign; [destruct i; [congruence | discriminate] | discriminate].
  - now rewrite !forallb_app, Hsign, Hi, Hf2, He2.
Qed.

Lemma match_number_split (s lexeme rest : pystr) :
  match_number s = Some (lexeme, rest) ->
  s = lexeme ++ rest /\ lexeme <> [] /\ forallb number_char lexeme = true.
Proof.
  unfold match_number. destruct s as [| c s]; [discriminate |].
  destruct (N.eqb_spec c (chr "-")) as [-> | _]; intros H.
  - now apply (scan_unsigned_split [chr "-"]) in H.
  - now apply (scan_unsigned_split []) in H.
Qed.

Lemma reads_number_chars (lexeme rest : pystr) :
  lexeme <> [] -> forallb number_char lexeme = true ->
  reads 1 Outside (lexeme ++ rest) rest Outside.
Proof.
  intros Hne H. apply (reads_less (length lexeme)).
  - destruct lexeme; [congruence | cbn [length]; lia].
  - apply reads_plain. rewrite forallb_forall in *.
    intros c Hc. apply number_char_plain. now apply H.
Qed.

Lemma keyword_reads (word : string) (v v' : json) (s rest : pystr) :
  forallb plain (str word) = true -> str word <> [] ->
  keyword word v s = Some (v', rest) -> reads 1 Outside s rest Outside.
Proof.
  unfold keyword. intros Hw Hne. destruct (startswith s (str word)) eqn:Hs; [| discriminate].
  intros [= _ <-]. apply startswith_split in Hs. rewrite Hs at 1.
  apply (reads_less (length (str word))).
  - destruct (str word); [congruence | cbn [length]; lia].
  - now apply reads_plain.
Qed.

Lemma atom_reads (s : pystr) (v : json) (rest : pystr) :
  atom s = Some (v, rest) -> reads 1 Outside s rest Outside.
Proof.
  unfold atom. destruct s as [| c s]; [discriminate |].
  repeat match goal with
         | |- (if ?b then _ else _) = _ -> _ => destruct b
         | |- keyword _ _ _ = _ -> _ =>
             apply keyword_reads; [reflexivity | discriminate]
         end.
  - destruct (match_number (c :: s)) as [[lexeme r] |] eqn:Hn.
    + intros [= _ <-]. apply match_number_split in Hn as (-> & Hne & Hl).
      now apply reads_number_chars.
    + repeat match goal with
             | |- (if ?b then _ else _) = _ -> _ => destruct b
             | |- keyword _ _ _ = _ -> _ =>
                 apply keyword_reads; [reflexivity | discriminate]
             end.
      discriminate.
Qed.

(** *** Delimiters *)

Lemma reads_after_ws (k : nat) (st : lex_state) (s rest : pystr) :
  reads k Outside (skip_ws s) rest st -> reads k Outside s rest st.
Proof.
  intros H. apply (reads_less (0 + k)); [lia |].
  eapply reads_then; [apply skip_ws_reads | exact H].
Qed.

Lemma open_object_reads (s : pystr) (a : after) :
  open_object s = Some a ->
  match a with
  | Closed rest => reads 1 Outside s rest Outside
  | Next rest => reads 1 Outside s rest Inside
  end.
Proof.
  unfold open_object. intros H. destruct (skip_ws s) as [| c r] eqn:Hs; [discriminate |].
  destruct (N.eqb_spec c (chr "}")) as [-> | _].
  { injection H as <-. apply reads_after_ws. rewrite Hs. now apply reads_char. }
  destruct (N.eqb_spec c dquote) as [-> | _]; [| discriminate].
  injection H as <-. apply reads_after_ws. rewrite Hs. now apply reads_char.
Qed.

Lemma open_array_reads (s : pystr) (a : after) :
  open_array s = Some a ->
  match a with
  | Closed rest => reads 1 Outside s rest Outside
  | Next rest => reads 0 Outside s rest Outside
  end.
Proof.
  unfold open_array. intros H. destruct (skip_ws s) as [| c r] eqn:Hs; [discriminate |].
  destruct (N.eqb_spec c (chr "]")) as [-> | _].
  - injection H as <-. apply reads_after_ws. rewrite Hs. now apply reads_char.
  - injection H as <-. rewrite <- Hs. apply skip_ws_reads.
Qed.

Lemma key_colon_reads (s key rest : pystr) :
  key_colon s = Some (key, rest) -> reads 2 Inside s rest Outside.
Proof.
  unfold key_colon. destruct (scanstring s [] None) as [[k s1] |] eqn:Hk; [| discriminate].
  apply (scanstring_reads (length s)) in Hk; [| lia].
  destruct (skip_ws s1) as [| c s2] eqn:Hs; [discriminate |].
  destruct (N.eqb_spec c (chr ":")) as [-> | _]; [| discriminate].
  intros [= _ <-]. apply (reads_less (1 + (1 + 0))); [lia |].
  eapply reads_then; [exact Hk |]. apply reads_after_ws. rewrite Hs.
  eapply reads_then; [now apply reads_char | apply skip_ws_reads].
Qed.

Lemma after_member_reads (s : pystr) (a : after) :
  after_member s = Some a ->
  match a with
  | Closed rest => reads 1 Outside s rest Outside
  | Next rest => reads 2 Outside s rest Inside
  end.
Proof.
  unfold after_member. intros H. destruct (skip_ws s) as [| c r] eqn:Hs; [discriminate |].
  destruct (N.eqb_spec c (chr "}")) as [-> | _].
  { injection H as <-. apply reads_after_ws. rewrite Hs. now apply reads_char. }
  destruct (N.eqb_spec c (chr ",")) as [-> | _]; [| discriminate].
  destruct (skip_ws r) as [| q r'] eqn:Hr; [discriminate |].
  destruct (N.eqb_spec q dquote) as [-> | _]; [| discriminate].
  injection H as <-. apply reads_after_ws. rewrite Hs.
  apply (reads_less (1 + 1)); [lia |].
  eapply reads_then; [now apply reads_char |].
  apply reads_after_ws. rewrite Hr. now apply reads_char.
Qed.

Lemma after_element_reads (s : pystr) (a : after) :
  after_element s = Some a ->
  match a with
  | Closed rest => reads 1 Outside s rest Outside
  | Next rest => reads 1 Outside s rest Outside
  end.
Proof.
  unfold after_element. intros H. destruct (skip_ws s) as [| c r] eqn:Hs; [discriminate |].
  destruct (N.eqb_spec c (chr "]")) as [-> | _].
  { injection H as <-. apply reads_after_ws. rewrite Hs. now apply reads_char. }
  destruct (N.eqb_spec c (chr ",")) as [-> | _]; [| discriminate].
  injection H as <-. apply reads_after_ws. rewrite Hs.
  apply (reads_less (1 + 0)); [lia |].
  eapply reads_then; [now apply reads_char | apply skip_ws_reads].
Qed.

(** *** Values *)

(** A value is read from outside a string literal to outside one, and so
    is an array from its first value on; an object is read from inside its
    first key on. *)
Lemma decoder_reads (fuel : nat) :
  (forall s v rest, scan_once fuel s = Some (v, rest) -> reads 1 Outside s rest Outside)
  /\ (forall s pairs v rest,
        members fuel s pairs = Some (v, rest) -> reads 1 Inside s rest Outside)
  /\ (forall s values v rest,
        elements fuel s values = Some (v, rest) -> reads 1 Outside s rest Outside).
Proof.
  induction fuel as [| fuel (IHv & IHm & IHe)]; [repeat split; discriminate |].
  split; [| split].
  - intros s v rest. cbn [scan_once]. destruct s as [| c r]; [discriminate |].
    destruct (N.eqb_spec c dquote) as [-> | _].
    { unfold string_value. destruct (scanstring r [] None) as [[t r'] |] eqn:Ht; [| discriminate].
      intros [= _ <-]. apply (scanstring_reads (length r)) in Ht; [| lia].
      apply (reads_less (1 + 1)); [lia |].
      eapply reads_then; [now apply reads_char | exact Ht]. }
    destruct (N.eqb_spec c (chr "{")) as [-> | _].
    { destruct (open_object r) as [[r' | r'] |] eqn:Ho; [| | discriminate];
        apply open_object_reads in Ho.
      - intros [= _ <-]. apply (reads_less (1 + 1)); [lia |].
        eapply reads_then; [now apply reads_char | exact Ho].
      - intros H. apply IHm in H. apply (reads_less (1 + (1 + 1))); [lia |].
        eapply reads_then; [now apply reads_char |].
        eapply reads_then; [exact Ho | exact H]. }
    destruct (N.eqb_spec c (chr "[")) as [-> | _].
    { destruct (open_array r) as [[r' | r'] |] eqn:Ho; [| | discriminate];
        apply open_array_reads in Ho.
      - intros [= _ <-]. apply (reads_less (1 + 1)); [lia |].
        eapply reads_then; [now apply reads_char | exact Ho].
      - intros H. apply IHe in H. apply (reads_less (1 + (0 + 1))); [lia |].
        eapply reads_then; [now apply reads_char |].
        eapply reads_then; [exact Ho | exact H]. }
    apply atom_reads.
  - intros s pairs v rest. cbn [members].
    destruct (key_colon s) as [[key s1] |] eqn:Hk; [| discriminate].
    apply key_colon_reads in Hk.
    destruct (scan_once fuel s1) as [[value s2] |] eqn:Hv; [| discriminate].
    apply IHv in Hv.
    destruct (after_member s2) as [[r' | r'] |] eqn:Ha; [| | discriminate];
      apply after_member_reads in Ha.
    + intros [= _ <-]. apply (reads_less (2 + (1 + 1))); [lia |].
      eapply reads_then; [exact Hk |]. eapply reads_then; [exact Hv | exact Ha].
    + intros H. apply IHm in H. apply (reads_less (2 + (1 + (2 + 1)))); [lia |].
      eapply reads_then; [exact Hk |]. eapply reads_then; [exact Hv |].
      eapply reads_then; [exact Ha | exact H].
  - intros s values v rest. cbn [elements].
    destruct (scan_once fuel s) as [[value s1] |] eqn:Hv; [| discriminate].
    apply IHv in Hv.
    destruct (after_element s1) as [[r' | r'] |] eqn:Ha; [| | discriminate];
      apply after_element_reads in Ha.
    + intros [= _ <-]. apply (reads_less (1 + 1)); [lia |].
      eapply reads_then; [exact Hv | exact Ha].
    + intros H. apply IHe in H. apply (reads_less (1 + (1 + 1))); [lia |].
      eapply reads_then; [exact Hv |]. eapply reads_then; [exact Ha | exact H].
Qed.



End DecoderReads.

(* ===================================================================== *)
(** ** Facts about the decoder: fuel *)
(* ===================================================================== *)

Section DecoderFuel.
Import Json.

Lemma after_length (k : nat) (st st' : lex_state) (s r : pystr) :
  reads k st s r st' -> (length r + k <= length s)%nat.
Proof. apply reads_length. Qed.



End DecoderFuel.

(* ===================================================================== *)
(** ** Facts about the decoder: blanks before a closing bracket *)
(* ===================================================================== *)

Section DecoderBlanks.
Import Json Extract.






Lemma ws_blank (c : N) : is_ws c = true -> isspace c = true.
Proof.
  unfold is_ws. intros H.
  repeat (apply orb_true_iff in H as [H | H]); apply N.eqb_eq in H; subst c; reflexivity.
Qed.





(** *** Strings *)


(** *** Numbers and constants *)






















(** *** Delimiters *)








(** *** Values *)





End DecoderBlanks.

(* ===================================================================== *)
(** ** Facts about the decoder: a trailing comma is an error *)
(* ===================================================================== *)

Section DecoderComma.
Import Json Extract.








(** *** Blanks, strings, numbers and constants *)







(** *** Delimiters *)






(** *** Values *)



End DecoderComma.

(* ===================================================================== *)
(** ** The decoding passes of the extraction *)
(* ===================================================================== *)

Section ExtractionClaims.
Import Extract.

Variable literal_eval : pystr -> option json.




End ExtractionClaims.

Section ExtractionExamples.
Import Extract.







End ExtractionExamples.

(* ===================================================================== *)
(** ** Further properties of the visibility filter *)
(* ===================================================================== *)

Section ReadingFacts.
Import Visibility Reading.

Variable power_name : pystr.

Lemma dict_has_field (msg : dict) (k : pystr) :
  dict_has msg k = true <-> has_field msg k.
Proof.
  unfold dict_has, has_field. destruct (dict_get msg k); split; congruence.
Qed.

Lemma can_read_readable (msg : dict) : can_read msg = true <-> readable msg.
Proof.
  unfold can_read, readable, is_record. rewrite orb_true_iff, andb_true_iff.
  now rewrite !dict_has_field.
Qed.

(** The test raises on a message without a recipient, and on one that is
    no broadcast and has no sender. *)
Lemma can_see_unreadable (msg : dict) :
  can_read msg = false -> can_see msg power_name = Raise KeyError.
Proof.
  unfold can_read, is_broadcast, field_is, dict_has, can_see, getitem.
  destruct (dict_get msg (str "recipient")) as [r |]; [| reflexivity].
  cbn [bind]. destruct (eq_str r (str "ALL")); [discriminate |].
  destruct (eq_str r (str "GLOBAL")); [discriminate |]. cbn [orb].
  destruct (dict_get msg (str "sender")); [discriminate | reflexivity].
Qed.

Lemma visible_loop_reads (msgs : list dict) :
  forall visible,
    visible_loop msgs power_name visible
    = if forallb can_read msgs
      then Ret (visible ++ List.filter (visible_to power_name) msgs)
      else Raise KeyError.
Proof.
  induction msgs as [| msg msgs IH]; intros visible; cbn [visible_loop forallb List.filter].
  - now rewrite app_nil_r.
  - destruct (can_read msg) eqn:Hmsg; cbn [andb].
    + apply can_read_readable in Hmsg.
      rewrite (can_see_readable power_name msg Hmsg). cbn [bind]. rewrite IH.
      destruct (forallb can_read msgs); [| reflexivity].
      destruct (visible_to power_name msg); [| reflexivity].
      now rewrite <- app_assoc.
    + now rewrite can_see_unreadable.
Qed.

End ReadingFacts.

Section ReadingProperties.
Import Visibility Reading.

(** X1.  The filter returns the messages that the power sent, that are
    addressed to it or that are broadcast, in transcript order, when every
    message has a recipient and every message that is no broadcast has a
    sender; on any other transcript it raises [KeyError]. *)
Theorem visible_or_key_error (transcript : list dict) (power_name : pystr) :
  get_visible_messages_for_power transcript power_name
  = if forallb can_read transcript
    then Ret (List.filter (visible_to power_name) transcript)
    else Raise KeyError.
Proof. unfold get_visible_messages_for_power. now rewrite visible_loop_reads. Qed.

(** X2.  Filtering a transcript that was extended is filtering its two
    parts: the first part's result is a prefix of the whole result, and an
    error in either part is an error of the whole. *)
Theorem visible_of_extended_transcript (earlier later : list dict) (power_name : pystr) :
  get_visible_messages_for_power (earlier ++ later) power_name
  = let* seen := get_visible_messages_for_power earlier power_name in
    let* more := get_visible_messages_for_power later power_name in
    Ret (seen ++ more).
Proof.
  unfold get_visible_messages_for_power. rewrite !visible_loop_reads.
  rewrite forallb_app, List.filter_app.
  destruct (forallb can_read earlier); [| reflexivity]. cbn [andb bind app].
  now destruct (forallb can_read later).
Qed.

(** X3.  What a power sees is stable: filtering the result once more for
    the same power returns it unchanged. *)
Theorem visible_is_stable (transcript visible : list dict) (power_name : pystr) :
  get_visible_messages_for_power transcript power_name = Ret visible ->
  get_visible_messages_for_power visible power_name = Ret visible.
Proof.
  unfold get_visible_messages_for_power. rewrite !visible_loop_reads. cbn [app].
  destruct (forallb can_read transcript) eqn:Hall; [| discriminate].
  intros [= <-].
  assert (Hsub : forallb can_read (List.filter (visible_to power_name) transcript) = true).
  { rewrite forallb_forall in *. intros msg Hmsg. apply filter_In in Hmsg as [Hmsg _]. auto. }
  rewrite Hsub. f_equal.
  induction transcript as [| msg rest IH]; [reflexivity |]. cbn [List.filter forallb] in *.
  apply andb_true_iff in Hall as [_ Hall].
  destruct (visible_to power_name msg) eqn:Hmsg; cbn [List.filter forallb] in *.
  - rewrite Hmsg. f_equal. apply andb_true_iff in Hsub as [_ Hsub]. auto.
  - auto.
Qed.

Lemma visible_is_stable_witness :
  get_visible_messages_for_power scenario (str "C")
  = Ret [message "A" "ALL"; message "B" "C"; message "A" "C"]
  /\ get_visible_messages_for_power
       [message "A" "ALL"; message "B" "C"; message "A" "C"] (str "C")
     = Ret [message "A" "ALL"; message "B" "C"; message "A" "C"].
Proof.
  split; [vm_compute; reflexivity |].
  apply (visible_is_stable scenario). vm_compute. reflexivity.
Defined.

End ReadingProperties.

(* ===================================================================== *)
(** ** Further properties of the validation of orders *)
(* ===================================================================== *)

Section ProposalFacts.
Import Orders Proposals.

Variable possible_orders : legal_actions.

Lemma filter_all {A : Type} (f : A -> bool) (l : list A) :
  forallb f l = true -> List.filter f l = l.
Proof.
  induction l as [| x l IH]; [reflexivity |]. cbn [forallb List.filter].
  intros H. apply andb_true_iff in H as [-> H]. now rewrite IH.
Qed.

Lemma filter_out {A : Type} (f : A -> bool) (l : list A) :
  forallb (fun x => negb (f x)) l = true -> List.filter f l = [].
Proof.
  induction l as [| x l IH]; [reflexivity |]. cbn [forallb List.filter].
  intros H. apply andb_true_iff in H as [Hx H]. apply negb_true_iff in Hx.
  now rewrite Hx, IH.
Qed.

(** No fallback is made when every location is served. *)
Lemma synthesized_served (orders : list json) :
  forallb (served orders) possible_orders = true ->
  synthesized possible_orders (covered orders) = [].
Proof.
  intros H. unfold synthesized, uncovered. rewrite filter_out; [reflexivity |].
  rewrite forallb_forall in *. intros item Hitem. specialize (H item Hitem).
  unfold served in H. unfold needs_fallback.
  destruct (is_empty (snd item)); [now rewrite andb_false_r |]. cbn [orb] in H.
  apply bool_decide_eq_true in H. rewrite bool_decide_eq_false_2; [reflexivity |]. auto.
Qed.

(** The validated orders serve every location whose orders are orders of
    the unit there. *)
Lemma validated_serve (acc : list json) :
  (forall loc orders_list a,
      In (loc, orders_list) possible_orders -> In a orders_list ->
      order_location a = Some loc) ->
  forallb (served (acc ++ synthesized possible_orders (covered acc))) possible_orders = true.
Proof.
  intros Hloc. apply forallb_forall. intros [loc orders_list] Hitem. unfold served.
  cbn [fst snd]. destruct orders_list as [| first others] eqn:Hol; [reflexivity |].
  cbn [is_empty orb]. apply bool_decide_eq_true. rewrite covered_app.
  destruct (decide (loc ∈ covered acc)) as [Hin | Hout]; [set_solver |].
  apply elem_of_union_r.
  assert (Hun : In (loc, first :: others) (uncovered possible_orders (covered acc))).
  { unfold uncovered. apply filter_In. split; [assumption |]. unfold needs_fallback.
    cbn [fst snd is_empty negb]. now rewrite bool_decide_eq_true_2. }
  destruct (fallback_of_chosen (loc, first :: others)) as (a & Ha & Hchosen);
    [discriminate |].
  apply first_hold_else_first_in in Hchosen. cbn [snd] in Hchosen.
  pose proof (Hloc _ _ _ Hitem Hchosen) as Hres.
  unfold covered. apply elem_of_list_to_set, list_elem_of_In, in_flat_map.
  exists (JStr a). split.
  - unfold synthesized. apply in_flat_map. exists (loc, first :: others).
    split; [assumption |]. rewrite Ha. now left.
  - cbn [resolved]. rewrite Hres. now left.
Qed.

Lemma accepted_legal (moves : list json) :
  forallb (is_legal possible_orders) (accepted possible_orders moves) = true.
Proof.
  apply forallb_forall. intros m Hm. now apply filter_In in Hm as [_ Hm].
Qed.

Lemma synthesized_all_legal (used : gset pystr) :
  forallb (is_legal possible_orders) (synthesized possible_orders used) = true.
Proof.
  apply forallb_forall. intros v Hv. apply is_legal_spec.
  now apply synthesized_legal in Hv.
Qed.

(** Legal orders that serve every location are returned as they are. *)
Lemma validate_complete (moves : list json) :
  forallb (is_legal possible_orders) moves = true ->
  forallb (served moves) possible_orders = true ->
  _validate_orders (JArr moves) possible_orders = Ret (moves, []).
Proof.
  intros Hlegal Hserved. rewrite validate_orders_spec. cbn [proposals].
  unfold accepted, rejected. rewrite (filter_all _ _ Hlegal).
  fold (covered moves). rewrite (synthesized_served _ Hserved), app_nil_r.
  rewrite filter_out; [reflexivity |].
  rewrite forallb_forall in *. intros m Hm. now rewrite (Hlegal m Hm).
Qed.

End ProposalFacts.

Section ProposalProperties.
Import Orders Proposals.

(** X4.  A proposal made of legal orders that resolve to every location
    with a legal order is returned as it is: no order is rejected and no
    fallback is added. *)
Theorem complete_proposal_unchanged (moves : list json) (possible_orders : legal_actions) :
  forallb (is_legal possible_orders) moves = true ->
  forallb (served moves) possible_orders = true ->
  _validate_orders (JArr moves) possible_orders = Ret (moves, []).
Proof. apply validate_complete. Qed.

Lemma complete_proposal_unchanged_witness :
  _validate_orders (JArr [JStr (str "A MAR H"); JStr (str "A PAR - BUR")]) paris_marseilles
  = Ret ([JStr (str "A MAR H"); JStr (str "A PAR - BUR")], []).
Proof.
  apply (complete_proposal_unchanged
           [JStr (str "A MAR H"); JStr (str "A PAR - BUR")] paris_marseilles).
  - vm_compute. reflexivity.
  - vm_compute. reflexivity.
Defined.

(** X5.  Validation is idempotent on a legal-action set whose orders are
    orders of the unit at their location: validating the validated orders
    once more returns them unchanged and rejects nothing. *)
Theorem validation_idempotent (moves : json) (possible_orders : legal_actions)
    (validated rejected : list json) :
  well_formed possible_orders ->
  _validate_orders moves possible_orders = Ret (validated, rejected) ->
  _validate_orders (JArr validated) possible_orders = Ret (validated, []).
Proof.
  intros [_ Hloc]. rewrite validate_orders_spec. intros [= <- _].
  apply validate_complete.
  - rewrite forallb_app, accepted_legal. apply synthesized_all_legal.
  - now apply validated_serve.
Qed.

Lemma validation_idempotent_witness :
  _validate_orders (JArr [JStr (str "A PAR - BUR"); JStr (str "A PAR H"); JStr (str "F BRE H")])
                   paris_marseilles
  = Ret ([JStr (str "A PAR - BUR"); JStr (str "A PAR H"); JStr (str "A MAR H")],
         [JStr (str "F BRE H")])
  /\ _validate_orders
       (JArr [JStr (str "A PAR - BUR"); JStr (str "A PAR H"); JStr (str "A MAR H")])
       paris_marseilles
     = Ret ([JStr (str "A PAR - BUR"); JStr (str "A PAR H"); JStr (str "A MAR H")], []).
Proof.
  split; [vm_compute; reflexivity |].
  apply (validation_idempotent
           (JArr [JStr (str "A PAR - BUR"); JStr (str "A PAR H"); JStr (str "F BRE H")])
           paris_marseilles _ [JStr (str "F BRE H")]).
  - exact paris_marseilles_well_formed.
  - vm_compute. reflexivity.
Defined.

(** X6.  When no proposed order is legal, and also when none is proposed,
    the result is the fallback of every location with a legal order, and
    every proposal is reported as rejected, in proposal order. *)
Theorem illegal_proposal_gets_fallback (moves : list json) (possible_orders : legal_actions) :
  forallb (fun m => negb (is_legal possible_orders m)) moves = true ->
  _validate_orders (JArr moves) possible_orders
  = Ret (List.map JStr (fallback_orders possible_orders), moves).
Proof.
  intros H. rewrite validate_orders_spec. cbn [proposals].
  unfold accepted, rejected. rewrite (filter_out _ _ H), (filter_all _ _ H).
  cbn [app]. rewrite covered_nil. now rewrite fallback_orders_spec.
Qed.

Lemma illegal_proposal_gets_fallback_witness :
  _validate_orders (JArr [JStr (str "A PAR - MOS"); JNum (str "7")]) paris_marseilles
  = Ret (List.map JStr (fallback_orders paris_marseilles),
         [JStr (str "A PAR - MOS"); JNum (str "7")]).
Proof.
  apply (illegal_proposal_gets_fallback
           [JStr (str "A PAR - MOS"); JNum (str "7")] paris_marseilles).
  vm_compute. reflexivity.
Defined.

(** X7.  No proposal is lost: a legal proposal is among the validated
    orders, any other is among the rejected ones, and the rejected ones are
    the proposals that are not legal, as often and in the order in which
    they were proposed. *)
Theorem every_proposal_accounted_for (moves : list json) (possible_orders : legal_actions) :
  exists validated rejected,
    _validate_orders (JArr moves) possible_orders = Ret (validated, rejected)
    /\ (forall m, In m moves ->
          if is_legal possible_orders m then In m validated else In m rejected)
    /\ rejected = List.filter (fun m => negb (is_legal possible_orders m)) moves
    /\ (length (List.filter (is_legal possible_orders) moves) + length rejected
        = length moves)%nat.
Proof.
  rewrite validate_orders_spec. cbn [proposals]. do 2 eexists.
  split; [reflexivity |]. split; [| split; [reflexivity |]].
  - intros m Hm. destruct (is_legal possible_orders m) eqn:Hl.
    + apply in_or_app. left. now apply filter_In.
    + apply filter_In. now rewrite Hl.
  - unfold rejected. induction moves as [| m rest IH]; [reflexivity |].
    cbn [List.filter length]. destruct (is_legal possible_orders m); cbn [negb length]; lia.
Qed.

(** X8.  When every location with a legal order has a hold among its
    orders, every fallback order is a hold. *)
Theorem fallback_holds_everywhere (possible_orders : legal_actions) :
  forallb can_hold possible_orders = true ->
  forallb is_hold (fallback_orders possible_orders) = true.
Proof.
  unfold fallback_orders. intros H.
  enough (Hloop : forall fallback,
             forallb is_hold fallback = true ->
             forallb is_hold (fallback_loop possible_orders fallback) = true)
    by now apply Hloop.
  induction possible_orders as [| [loc orders_list] rest IH]; intros fallback Hf; [exact Hf |].
  cbn [forallb] in H. apply andb_true_iff in H as [Hitem H].
  cbn [fallback_loop]. destruct orders_list as [| first others]; [now apply IH |].
  apply IH; [assumption |]. rewrite forallb_app, Hf. cbn [forallb andb].
  rewrite andb_true_r. unfold can_hold in Hitem. cbn [snd is_empty orb] in Hitem.
  unfold choose. pose proof (filter_first is_hold (first :: others)) as Hfirst.
  destruct (List.filter is_hold (first :: others)) as [| h hs] eqn:Hfilter.
  - apply existsb_exists in Hitem as (o & Ho & Hhold).
    rewrite List.Forall_forall in Hfirst. rewrite (Hfirst o Ho) in Hhold. discriminate.
  - now destruct Hfirst as (_ & _ & _ & Hh & _).
Qed.

Lemma fallback_holds_everywhere_witness :
  forallb is_hold (fallback_orders paris_marseilles) = true.
Proof. apply (fallback_holds_everywhere paris_marseilles). vm_compute. reflexivity. Defined.

End ProposalProperties.

(* ===================================================================== *)
(** ** Further properties of the extraction *)
(* ===================================================================== *)

Section BraceFacts.
Import Regex Json Extract Blocks.

(** *** The block starts with a brace *)

Lemma lstrip_snoc (s : pystr) (c : N) :
  isspace c = false -> exists l, lstrip (s ++ [c]) = l ++ [c].
Proof.
  intros Hc. induction s as [| d s IH]; cbn [app lstrip].
  - rewrite Hc. now exists [].
  - destruct (isspace d); [exact IH |]. now exists (d :: s).
Qed.

Lemma rstrip_head (c : N) (s : pystr) :
  isspace c = false -> exists r, rstrip (c :: s) = c :: r.
Proof.
  intros Hc. unfold rstrip. cbn [rev].
  destruct (lstrip_snoc (rev s) c Hc) as (l & ->).
  rewrite rev_app_distr. cbn [rev app]. now exists (rev l).
Qed.

Lemma strip_head (c : N) (s : pystr) :
  isspace c = false -> exists r, strip (c :: s) = c :: r.
Proof. intros Hc. unfold strip. rewrite lstrip_head by assumption. now apply rstrip_head. Qed.

Lemma startswith_head (c d : N) (s : pystr) :
  startswith (c :: s) [d] = (d =? c).
Proof. cbn [startswith]. now rewrite andb_true_r. Qed.

Lemma json_text_brace (group : pystr) :
  json_text_of group = [] \/ exists r, json_text_of group = chr "{" :: r.
Proof.
  unfold json_text_of. change (str "{{") with [chr "{"; chr "{"].
  change (str "{") with [chr "{"]. change (str "}") with [chr "}"].
  destruct (strip group) as [| c captured].
  - right. cbn [startswith app]. now apply strip_head.
  - destruct (N.eqb_spec (chr "{") c) as [<- | Hc].
    + destruct (startswith (chr "{" :: captured) [chr "{"; chr "{"]) eqn:H2.
      * destruct captured as [| d captured]; [discriminate |].
        cbn [startswith] in H2. apply andb_true_iff in H2 as [_ H2].
        apply andb_true_iff in H2 as [H2 _]. apply N.eqb_eq in H2 as <-.
        unfold inner. cbn [tl]. destruct captured as [| e captured]; [now left |].
        right. cbn [removelast]. now apply strip_head.
      * rewrite startswith_head, N.eqb_refl. right. now apply strip_head.
    + assert (H2 : startswith (c :: captured) [chr "{"; chr "{"] = false).
      { cbn [startswith]. now rewrite (proj2 (N.eqb_neq _ _) Hc). }
      rewrite H2, startswith_head, (proj2 (N.eqb_neq _ _) Hc).
      right. cbn [app]. now apply strip_head.
Qed.

Lemma candidate_brace (raw_response json_text : pystr) :
  candidate raw_response = Some json_text -> exists r, json_text = chr "{" :: r.
Proof.
  unfold candidate. destruct (first_match raw_response) as [group |]; [| discriminate].
  destruct (json_text_brace group) as [-> | (r & ->)]; [discriminate |].
  intros [= <-]. now exists r.
Qed.

(** *** A text that starts with a brace decodes to a dictionary *)

Lemma members_dict (fuel : nat) :
  forall s pairs v rest, members fuel s pairs = Some (v, rest) -> is_dict v = true.
Proof.
  induction fuel as [| fuel IH]; intros s pairs v rest; [discriminate |].
  cbn [members]. destruct (key_colon s) as [[key s1] |]; [| discriminate].
  destruct (scan_once fuel s1) as [[value s2] |]; [| discriminate].
  destruct (after_member s2) as [[t | t] |]; [| | discriminate].
  - now intros [= <- _].
  - apply IH.
Qed.

Lemma loads_brace_dict (r : pystr) (v : json) :
  loads (chr "{" :: r) = Some v -> is_dict v = true.
Proof.
  unfold loads. destruct (startswith (chr "{" :: r) [65279]); [discriminate |].
  change (skip_ws (chr "{" :: r)) with (chr "{" :: r).
  destruct (scan_once (S (2 * length (chr "{" :: r))) (chr "{" :: r)) as [[v' rest] |] eqn:Hv;
    [| discriminate].
  destruct (skip_ws rest); [| discriminate]. intros [= <-].
  cbn [scan_once] in Hv. change (chr "{" =? dquote) with false in Hv.
  change (chr "{" =? chr "{") with true in Hv. cbn match in Hv.
  destruct (open_object r) as [[t | t] |]; [| | discriminate].
  - now injection Hv as <- _.
  - now apply members_dict in Hv.
Qed.

Lemma get_orders_dict (data : json) :
  is_dict data = true -> exists v, get_orders data = Ret v.
Proof.
  destruct data; try discriminate. intros _. cbn [get_orders].
  destruct (dict_get fields (str "orders")) as [v |]; eauto.
Qed.

(** *** The rewrites keep the brace *)

Lemma strip_trailing_commas_brace (r : pystr) :
  exists r', strip_trailing_commas (chr "{" :: r) = chr "{" :: r'.
Proof.
  unfold strip_trailing_commas, sub_group. cbn [length sub_from].
  rewrite match_here_trailing_comma.
  change (comma_here (chr "{" :: r)) with (@None (N * pystr)). eauto.
Qed.

Lemma fixed_json_brace (r : pystr) : exists r', fixed_json (chr "{" :: r) = chr "{" :: r'.
Proof.
  unfold fixed_json. destruct (strip_trailing_commas_brace r) as (r' & ->).
  unfold replace_char. cbn [List.map].
  change (chr "{" =? chr "'") with false. cbn match. eauto.
Qed.

Lemma find_comment_from (line : pystr) :
  forall i in_quotes escape_next pos,
    find_comment line i in_quotes escape_next = Some pos ->
    exists n, pos = (i + n)%nat /\ startswith (skipn n line) (str "//") = true.
Proof.
  induction line as [| char rest IH]; intros i q e pos; [discriminate |].
  cbn [find_comment].
  assert (Hnext : forall q' e',
             find_comment rest (S i) q' e' = Some pos ->
             exists n, pos = (i + n)%nat
                       /\ startswith (skipn n (char :: rest)) (str "//") = true).
  { intros q' e' H. apply IH in H as (n & -> & Hn). exists (S n). split; [lia | exact Hn]. }
  destruct e; [apply Hnext |].
  destruct (char =? chr "\"); [apply Hnext |].
  destruct (negb (if char =? dquote then negb q else q)
            && startswith (char :: rest) (str "//")) eqn:Hhere; [| apply Hnext].
  intros [= <-]. exists 0%nat. apply andb_true_iff in Hhere as [_ Hhere].
  split; [lia | exact Hhere].
Qed.

Lemma split_on_nonempty (sep : N) (s cur : pystr) : split_on sep s cur <> [].
Proof.
  revert cur. induction s as [| c s IH]; intros cur; cbn [split_on]; [discriminate |].
  destruct (c =? sep); [discriminate | apply IH].
Qed.

Lemma cleaned_line_brace (l : pystr) : exists r, cleaned_line (chr "{" :: l) = chr "{" :: r.
Proof.
  unfold cleaned_line.
  destruct (find_comment (chr "{" :: l) 0 false false) as [pos |] eqn:Hpos; [| eauto].
  apply find_comment_from in Hpos as (n & -> & Hn). cbn [Nat.add].
  destruct n as [| n]; [discriminate |]. cbn [firstn].
  now apply rstrip_head.
Qed.

Lemma comment_free_json_brace (r : pystr) :
  exists r', comment_free_json (chr "{" :: r) = chr "{" :: r'.
Proof.
  unfold comment_free_json. cbn [split_on]. change (chr "{" =? 10) with false. cbn match.
  rewrite split_on_cur. cbn [app].
  destruct (split_on 10 r []) as [| first rest] eqn:Hs; [now apply split_on_nonempty in Hs |].
  cbn [List.map app]. destruct (cleaned_line_brace first) as (y & ->).
  destruct (List.map cleaned_line rest) as [| l ls]; cbn [join app];
    apply strip_trailing_commas_brace.
Qed.

(** Every attempt of [decode] on a block that starts with a brace ends in
    a value. *)
Lemma decode_returns (literal_eval : pystr -> option json) (r : pystr) :
  exists v, decode literal_eval (chr "{" :: r) = Ret v.
Proof.
  unfold decode.
  destruct (loads (chr "{" :: r)) as [data |] eqn:H1.
  { apply get_orders_dict. eapply loads_brace_dict. exact H1. }
  destruct (fixed_json_brace r) as (r2 & ->).
  destruct (loads (chr "{" :: r2)) as [data |] eqn:H2.
  { apply get_orders_dict. eapply loads_brace_dict. exact H2. }
  destruct (comment_free_json_brace r) as (r3 & ->).
  destruct (loads (chr "{" :: r3)) as [data |] eqn:H3.
  { apply get_orders_dict. eapply loads_brace_dict. exact H3. }
  eauto.
Qed.

Lemma extract_returns (literal_eval : pystr -> option json) (raw_response : pystr) :
  exists v, _extract_moves literal_eval raw_response = Ret v.
Proof.
  unfold _extract_moves. destruct (candidate raw_response) as [json_text |] eqn:Hc; [| eauto].
  apply candidate_brace in Hc as (r & ->). apply decode_returns.
Qed.

End BraceFacts.

Section NeedsFacts.
Import Regex Extract Blocks.

Variable a : N.

Lemma has_char_app (s t : pystr) : has_char a (s ++ t) = has_char a s || has_char a t.
Proof. unfold has_char. apply existsb_app. Qed.

Lemma has_char_skipn (n : nat) (s : pystr) :
  has_char a s = false -> has_char a (skipn n s) = false.
Proof.
  intros H. rewrite <- (firstn_skipn n s), has_char_app in H.
  now apply orb_false_iff in H as [_ H].
Qed.

Lemma has_char_tail (c : N) (s : pystr) :
  has_char a (c :: s) = false -> has_char a s = false.
Proof. unfold has_char. cbn [existsb]. intros H. now apply orb_false_iff in H as [_ H]. Qed.

(** A pattern that needs [a] matches nowhere in a text without [a], and a
    pattern that does not need it hands over a text without [a]. *)
Lemma matches_needs {R : Type} (r : regex) :
  forall (s : pystr) (cap : option pystr) (k : pystr -> option pystr -> option R),
    has_char a s = false ->
    needs a r = true
    \/ (forall s' cap', has_char a s' = false -> k s' cap' = None) ->
    matches r s cap k = None.
Proof.
  induction r as [l | p | p | p | r IH | r1 IH1 r2 IH2 |]; intros s cap k Hs Hk.
  - cbn [matches]. destruct (startswith s l) eqn:Hl; [| reflexivity].
    destruct Hk as [Hneeds | Hk].
    + cbn [needs] in Hneeds. apply startswith_split in Hl. rewrite Hl, has_char_app in Hs.
      apply orb_false_iff in Hs as [Hs _]. congruence.
    + apply Hk. now apply has_char_skipn.
  - destruct Hk as [Hneeds | Hk]; [discriminate |]. cbn [matches].
    destruct s as [| c s]; [reflexivity |]. destruct (p c); [| reflexivity].
    apply Hk. now apply has_char_tail in Hs.
  - destruct Hk as [Hneeds | Hk]; [discriminate |]. cbn [matches].
    induction s as [| c s IHs]; [now apply Hk |].
    destruct (p c); [| now apply Hk].
    rewrite IHs by now apply has_char_tail in Hs. now apply Hk.
  - destruct Hk as [Hneeds | Hk]; [discriminate |]. cbn [matches].
    induction s as [| c s IHs].
    + now rewrite Hk.
    + rewrite Hk by assumption. destruct (p c); [| reflexivity].
      apply IHs. now apply has_char_tail in Hs.
  - cbn [matches]. apply IH; [assumption |].
    destruct Hk as [Hneeds | Hk]; [now left | right]. intros s' cap' Hs'. now apply Hk.
  - cbn [matches]. cbn [needs] in Hk.
    destruct (needs a r1) eqn:H1; [apply IH1; auto |].
    apply IH1; [assumption | right]. intros s' cap' Hs'. apply IH2; [assumption |].
    destruct Hk as [Hneeds | Hk]; [now left | now right].
  - destruct Hk as [Hneeds | Hk]; [discriminate |]. cbn [matches].
    destruct (at_end s); [now apply Hk | reflexivity].
Qed.

Lemma search_needs (r : regex) (s : pystr) :
  needs a r = true -> has_char a s = false -> search r s = None.
Proof.
  intros Hr. induction s as [| c s IH]; intros Hs; cbn [search]; unfold match_here.
  - now rewrite matches_needs by auto.
  - rewrite matches_needs by auto. apply IH. now apply has_char_tail in Hs.
Qed.

End NeedsFacts.

Section MarkerFacts.
Import Regex Json Extract Blocks.

(** *** The matcher, step by step *)







(** *** Strings with no blank at either end *)



(** *** The first pattern of the cascade *)











End MarkerFacts.

Section CommentFacts.
Import Regex Json Extract Blocks.

(** *** Lines without a comment *)

Lemma find_comment_absent (line : pystr) :
  has_char (chr "/") line = false ->
  forall i in_quotes escape_next, find_comment line i in_quotes escape_next = None.
Proof.
  induction line as [| char rest IH]; intros H i q e; [reflexivity |].
  pose proof (has_char_tail _ _ _ H) as Hrest.
  unfold has_char in H. cbn [existsb] in H. apply orb_false_iff in H as [Hc _].
  cbn [find_comment]. change (str "//") with [chr "/"; chr "/"]. cbn [startswith].
  rewrite Hc. cbn [andb]. rewrite andb_false_r.
  destruct e; [now apply IH |]. destruct (char =? chr "\"); now apply IH.
Qed.

Lemma cleaned_line_plain (line : pystr) :
  has_char (chr "/") line = false -> cleaned_line line = line.
Proof. intros H. unfold cleaned_line. now rewrite find_comment_absent. Qed.

Lemma split_on_chars (a sep : N) (s : pystr) :
  forall cur,
    has_char a s = false -> has_char a cur = false ->
    Forall (fun line => has_char a line = false) (split_on sep s cur).
Proof.
  induction s as [| c s IH]; intros cur Hs Hcur; cbn [split_on].
  - now constructor.
  - pose proof (has_char_tail _ _ _ Hs) as Hrest.
    destruct (c =? sep).
    + constructor; [assumption | now apply IH].
    + apply IH; [assumption |]. rewrite has_char_app, Hcur. cbn [orb].
      unfold has_char in *. cbn [existsb] in *.
      apply orb_false_iff in Hs as [-> _]. reflexivity.
Qed.

(** Joining the lines of a text gives the text back. *)
Lemma join_split_on (sep : N) (s : pystr) :
  forall cur, join sep (split_on sep s cur) = cur ++ s.
Proof.
  induction s as [| c s IH]; intros cur; cbn [split_on].
  - cbn [join]. now rewrite app_nil_r.
  - destruct (N.eqb_spec c sep) as [-> | _].
    + specialize (IH []). cbn [app] in IH.
      destruct (split_on sep s []) as [| l ls] eqn:Hs; [now apply split_on_nonempty in Hs |].
      cbn [join] in *. now rewrite IH.
    + rewrite IH, <- app_assoc. reflexivity.
Qed.

Lemma comment_free_plain (json_text : pystr) :
  has_char (chr "/") json_text = false ->
  comment_free_json json_text = strip_trailing_commas json_text.
Proof.
  intros H. unfold comment_free_json. f_equal.
  rewrite <- (join_split_on 10 json_text []) at 2. cbn [app]. f_equal.
  pose proof (split_on_chars (chr "/") 10 json_text [] H eq_refl) as Hlines.
  induction Hlines as [| line lines Hline _ IH]; [reflexivity |].
  cbn [List.map]. now rewrite cleaned_line_plain, IH.
Qed.

(** *** What a cleaned line has lost *)

Lemma lstrip_split (s : pystr) :
  exists blanks, s = blanks ++ lstrip s /\ forallb isspace blanks = true.
Proof.
  induction s as [| c s (blanks & IH & Hb)]; [now exists [] |]. cbn [lstrip].
  destruct (isspace c) eqn:Hc; [| now exists []].
  exists (c :: blanks). cbn [app forallb]. rewrite Hc, Hb. split; [now f_equal | reflexivity].
Qed.

Lemma rstrip_split (s : pystr) :
  exists blanks, s = rstrip s ++ blanks /\ forallb isspace blanks = true.
Proof.
  unfold rstrip. destruct (lstrip_split (rev s)) as (blanks & Heq & Hb).
  exists (rev blanks). split.
  - rewrite <- rev_app_distr, <- Heq. now rewrite rev_involutive.
  - rewrite forallb_forall in *. intros c Hc. apply Hb. now apply in_rev.
Qed.

Lemma cleaned_line_cut (line : pystr) :
  cleaned_line line = line
  \/ exists blanks remark,
       line = cleaned_line line ++ blanks ++ str "//" ++ remark
       /\ forallb isspace blanks = true.
Proof.
  unfold cleaned_line.
  destruct (find_comment line 0 false false) as [pos |] eqn:Hpos; [right | now left].
  apply find_comment_from in Hpos as (n & -> & Hn). cbn [Nat.add].
  apply startswith_split in Hn.
  destruct (rstrip_split (firstn n line)) as (blanks & Heq & Hb).
  exists blanks, (skipn (length (str "//")) (skipn n line)). split; [| exact Hb].
  rewrite <- Hn, app_assoc, <- Heq. now rewrite firstn_skipn.
Qed.

(** *** Single quotes *)







End CommentFacts.

Section FenceFacts.
Import Regex Json Extract Blocks.











End FenceFacts.

Section BracketFacts.
Import Regex Json Extract Blocks.







End BracketFacts.

Section ClosingFacts.
Import Regex Json Extract Blocks.







End ClosingFacts.

Section ExtractionProperties.
Import Regex Json Extract Blocks.


(** X10.  A response with no opening brace and no backquote has no block:
    the extraction returns [None]. *)
Theorem no_block_without_brace_or_fence (literal_eval : pystr -> option json)
    (raw_response : pystr) :
  has_char (chr "{") raw_response = false ->
  has_char (chr "`") raw_response = false ->
  _extract_moves literal_eval raw_response = Ret JNull.
Proof.
  intros Hbrace Hfence. unfold _extract_moves, candidate, first_match.
  rewrite (search_needs (chr "{") pattern), (search_needs (chr "{") pattern_alt),
    (search_needs (chr "{") pattern_asterisk), (search_needs (chr "`") code_fence_pattern),
    (search_needs (chr "`") code_fence_plain), (search_needs (chr "{") bare_json_pattern)
    by (assumption || reflexivity).
  reflexivity.
Qed.

Lemma no_block_without_brace_or_fence_witness :
  _extract_moves no_literal (str "I hold everywhere: A PAR H, A MAR H.") = Ret JNull.
Proof.
  apply (no_block_without_brace_or_fence no_literal (str "I hold everywhere: A PAR H, A MAR H."));
    vm_compute; reflexivity.
Defined.





(** X13.  The scan for comments cuts a line only at its end: the cleaned
    line is the line itself, or the line without a [//] remark and the
    blanks before it. *)
Theorem comment_scan_cuts_line_ends (line : pystr) :
  cleaned_line line = line
  \/ exists blanks remark,
       line = cleaned_line line ++ blanks ++ str "//" ++ remark
       /\ forallb isspace blanks = true.
Proof. apply cleaned_line_cut. Qed.

(** X14.  On a block without a slash the comment pass is the trailing-comma
    rewrite alone: splitting the block into lines and joining them gives
    the block back. *)
Theorem comment_pass_without_slash (json_text : pystr) :
  has_char (chr "/") json_text = false ->
  comment_free_json json_text = strip_trailing_commas json_text.
Proof. apply comment_free_plain. Qed.

Lemma comment_pass_without_slash_witness :
  comment_free_json (text "{~orders~: [~A PAR H~,]}")
  = strip_trailing_commas (text "{~orders~: [~A PAR H~,]}").
Proof.
  apply (comment_pass_without_slash (text "{~orders~: [~A PAR H~,]}")).
  vm_compute. reflexivity.
Defined.









End ExtractionProperties.

(* ===================================================================== *)
(** ** Properties of [get_orders] *)
(* ===================================================================== *)

Section ClientFacts.
Import Orders Client.

Variable literal_eval : pystr -> option json.
Variable nonzero : pystr -> bool.
Variable possible_orders : legal_actions.

(** A payload that counts as empty is validated to the fallback. *)
Lemma validate_falsy (moves : json) :
  truthy nonzero moves = false ->
  exists rejected,
    _validate_orders moves possible_orders
    = Ret (List.map JStr (fallback_orders possible_orders), rejected).
Proof.
  intros H. destruct moves as [| b | lexeme | s | items | fields];
    try (eexists; reflexivity).
  destruct items as [| item items]; [| discriminate].
  exists []. rewrite validate_orders_spec. cbn [proposals accepted List.filter app rejected].
  now rewrite covered_nil, fallback_orders_spec.
Qed.

Lemma get_orders_validated (formatted_response : pystr) :
  exists moves rejected,
    Extract._extract_moves literal_eval formatted_response = Ret moves
    /\ _validate_orders moves possible_orders
       = Ret (get_orders literal_eval nonzero (Some formatted_response) possible_orders,
              rejected).
Proof.
  destruct (extract_returns literal_eval formatted_response) as (moves & Hmoves).
  exists moves. unfold get_orders. rewrite Hmoves.
  destruct (truthy nonzero moves) eqn:Ht; cbn [negb].
  - rewrite validate_orders_spec. eexists. split; reflexivity.
  - destruct (validate_falsy moves Ht) as (rejected & ->). now exists rejected.
Qed.

Lemma validated_legal (moves : json) (validated rejected : list json) (v : json) :
  _validate_orders moves possible_orders = Ret (validated, rejected) ->
  In v validated -> exists a, v = JStr a /\ legal_in possible_orders a.
Proof.
  rewrite validate_orders_spec. intros [= <- _] Hv. apply in_app_or in Hv as [Hv | Hv].
  - apply filter_In in Hv as [_ Hv]. now apply is_legal_spec in Hv.
  - now apply synthesized_legal in Hv.
Qed.

Lemma no_orders_no_legal (v : json) :
  existsb has_orders possible_orders = false -> is_legal possible_orders v = false.
Proof.
  intros H. unfold is_legal. apply not_true_is_false. intros Hl.
  apply existsb_exists in Hl as (item & Hitem & Hin).
  assert (Hhas : has_orders item = true).
  { unfold has_orders. destruct (snd item); [discriminate | reflexivity]. }
  assert (Hex : existsb has_orders possible_orders = true)
    by (apply existsb_exists; eauto).
  congruence.
Qed.

Lemma validated_empty (moves : json) (validated rejected : list json) :
  _validate_orders moves possible_orders = Ret (validated, rejected) ->
  is_empty validated = negb (existsb has_orders possible_orders).
Proof.
  rewrite validate_orders_spec. intros [= <- _].
  destruct (existsb has_orders possible_orders) eqn:Hex; cbn [negb].
  - apply existsb_exists in Hex as (item & Hitem & Hhas).
    destruct (accepted possible_orders (proposals moves)) as [| a acc] eqn:Hacc;
      [| reflexivity].
    cbn [app]. rewrite covered_nil. unfold synthesized, uncovered.
    assert (Hin : In item (List.filter (needs_fallback ∅) possible_orders)).
    { apply filter_In. split; [assumption |]. unfold needs_fallback.
      rewrite bool_decide_eq_true_2 by set_solver. exact Hhas. }
    destruct (List.filter (needs_fallback ∅) possible_orders) as [| first rest] eqn:Hf;
      [contradiction |].
    assert (Hfirst : In first (List.filter (needs_fallback ∅) possible_orders))
      by (rewrite Hf; now left).
    apply filter_In in Hfirst as [_ Hfirst]. unfold needs_fallback in Hfirst.
    apply andb_true_iff in Hfirst as [_ Hfirst].
    cbn [flat_map]. unfold fallback_of. now destruct (snd first).
  - unfold accepted. rewrite filter_none by (intros; now apply no_orders_no_legal).
    cbn [app]. unfold synthesized, uncovered. rewrite filter_none; [reflexivity |].
    intros item Hitem. unfold needs_fallback.
    assert (Hhas : has_orders item = false).
    { apply not_true_is_false. intros Hhas.
      assert (existsb has_orders possible_orders = true) by (apply existsb_exists; eauto).
      congruence. }
    unfold has_orders in Hhas. rewrite Hhas. apply andb_false_r.
Qed.

End ClientFacts.

Section ClientProperties.
Import Orders Client.


(** X17.  Whatever the model answers, and also when the call fails, every
    order returned is a string that occurs in the legal sequence of some
    location. *)
Theorem returned_orders_are_legal (literal_eval : pystr -> option json)
    (nonzero : pystr -> bool) (formatted_response : option pystr)
    (possible_orders : legal_actions) (v : json) :
  In v (get_orders literal_eval nonzero formatted_response possible_orders) ->
  exists a, v = JStr a /\ legal_in possible_orders a.
Proof.
  destruct formatted_response as [response |].
  - destruct (get_orders_validated literal_eval nonzero possible_orders response)
      as (moves & rejected & _ & Hv).
    now apply validated_legal with (1 := Hv).
  - cbn [get_orders]. rewrite fallback_orders_spec. apply synthesized_legal.
Qed.

Lemma returned_orders_are_legal_witness :
  exists a, JStr (str "A MAR H") = JStr a /\ legal_in paris_marseilles a.
Proof.
  apply (returned_orders_are_legal Extract.no_literal (fun _ => true)
           (Some (text "PARSABLE OUTPUT: {~orders~: [~A PAR - BUR~, ~A PAR - MOS~]}"))
           paris_marseilles).
  vm_compute. right. left. reflexivity.
Defined.

(** X18.  The orders returned are empty only when no location has a legal
    order: whatever the model answers, and also when the call fails. *)
Theorem orders_unless_nothing_to_order (literal_eval : pystr -> option json)
    (nonzero : pystr -> bool) (formatted_response : option pystr)
    (possible_orders : legal_actions) :
  is_empty (get_orders literal_eval nonzero formatted_response possible_orders)
  = negb (existsb has_orders possible_orders).
Proof.
  destruct formatted_response as [response |].
  - destruct (get_orders_validated literal_eval nonzero possible_orders response)
      as (moves & rejected & _ & Hv).
    now apply validated_empty with (1 := Hv).
  - cbn [get_orders].
    apply (validated_empty possible_orders JNull _ []). reflexivity.
Qed.

End ClientProperties.

(* ===================================================================== *)
(** ** Properties of the factory of clients *)
(* ===================================================================== *)

Section FactoryFacts.
Import Factory.

Lemma partition_at (c : N) (before after : pystr) :
  has_char c before = false ->
  partition [c] (before ++ c :: after) = (before, true, after).
Proof.
  induction before as [| d before IH]; intros H; cbn [app partition].
  - rewrite startswith_head, N.eqb_refl. reflexivity.
  - rewrite startswith_head. unfold has_char in H. cbn [existsb] in H.
    apply orb_false_iff in H as [-> H]. now rewrite IH.
Qed.

Lemma partition_none (c : N) (s : pystr) :
  has_char c s = false -> partition [c] s = (s, false, []).
Proof.
  induction s as [| d s IH]; intros H; cbn [partition]; [reflexivity |].
  rewrite startswith_head. unfold has_char in H. cbn [existsb] in H.
  apply orb_false_iff in H as [-> H]. now rewrite IH.
Qed.

Lemma lacks_char (separators s : pystr) (c : N) :
  lacks separators s = true -> has_char c separators = true -> has_char c s = false.
Proof.
  unfold lacks. intros Hs Hc. apply not_true_is_false. intros H.
  unfold has_char in H. apply existsb_exists in H as (d & Hd & Hcd).
  apply N.eqb_eq in Hcd as <-. rewrite forallb_forall in Hs.
  specialize (Hs c Hd). now rewrite Hc in Hs.
Qed.

Lemma or_none_given (x : pystr) : Orders.is_empty x = false -> or_none x = Some x.
Proof. now destruct x. Qed.

Lemma head_lacks (spec : ModelSpec) (c : N) :
  well_spelled spec = true -> c = chr "@" \/ c = chr "#" ->
  has_char c (head spec) = false.
Proof.
  unfold well_spelled, head. intros H Hc.
  apply andb_true_iff in H as [H _]. apply andb_true_iff in H as [H _].
  destruct (prefix spec) as [p |].
  - apply andb_true_iff in H as [Hp Hm]. rewrite !has_char_app.
    destruct Hc as [-> | ->].
    + now rewrite (lacks_char _ _ (chr "@") Hp eq_refl), (lacks_char _ _ (chr "@") Hm eq_refl).
    + now rewrite (lacks_char _ _ (chr "#") Hp eq_refl), (lacks_char _ _ (chr "#") Hm eq_refl).
  - cbn [app]. destruct Hc as [-> | ->].
    + exact (lacks_char _ _ (chr "@") H eq_refl).
    + exact (lacks_char _ _ (chr "#") H eq_refl).
Qed.

Lemma partition_head (lower : pystr -> pystr) (spec : ModelSpec) :
  well_spelled spec = true ->
  (let '(maybe_pref, sep, model_part) := partition (str ":") (head spec) in
   if sep then (Some (lower maybe_pref), model_part) else (None, maybe_pref))
  = (option_map lower (prefix spec), model spec).
Proof.
  unfold well_spelled, head. intros H.
  apply andb_true_iff in H as [H _]. apply andb_true_iff in H as [H _].
  change (str ":") with [chr ":"].
  destruct (prefix spec) as [p |].
  - apply andb_true_iff in H as [Hp _]. rewrite <- app_assoc. cbn [app].
    rewrite partition_at; [reflexivity |]. exact (lacks_char _ _ (chr ":") Hp eq_refl).
  - cbn [app]. rewrite partition_none; [reflexivity |].
    exact (lacks_char _ _ (chr ":") H eq_refl).
Qed.

Lemma partition_base (spec : ModelSpec) :
  well_spelled spec = true ->
  (let '(pre_at, _, base_part) :=
     partition (str "@")
               (head spec ++ match base spec with Some b => str "@" ++ b | None => [] end) in
   (pre_at, or_none base_part))
  = (head spec, base spec).
Proof.
  intros H. pose proof (head_lacks spec (chr "@") H (or_introl eq_refl)) as Hhead.
  unfold well_spelled in H. apply andb_true_iff in H as [H _].
  apply andb_true_iff in H as [_ H]. change (str "@") with [chr "@"].
  destruct (base spec) as [b |].
  - apply andb_true_iff in H as [Hb _]. apply negb_true_iff in Hb. cbn [app].
    now rewrite partition_at, or_none_given.
  - rewrite app_nil_r. now rewrite partition_none.
Qed.

Lemma partition_key (spec : ModelSpec) :
  well_spelled spec = true ->
  (let '(pre_hash, _, key_part) := partition (str "#") (render spec) in
   (pre_hash, or_none key_part))
  = (head spec ++ match base spec with Some b => str "@" ++ b | None => [] end, key spec).
Proof.
  intros H. pose proof (head_lacks spec (chr "#") H (or_intror eq_refl)) as Hhead.
  assert (Hrender : render spec
                    = (head spec ++ match base spec with
                                    | Some b => str "@" ++ b
                                    | None => []
                                    end)
                      ++ match key spec with Some k => str "#" ++ k | None => [] end)
    by (unfold render, head; now rewrite !app_assoc).
  rewrite Hrender. clear Hrender. unfold well_spelled in H.
  apply andb_true_iff in H as [H Hk]. apply andb_true_iff in H as [_ Hb].
  change (str "#") with [chr "#"].
  assert (Hfront : has_char (chr "#")
                     (head spec ++ match base spec with
                                   | Some b => str "@" ++ b
                                   | None => []
                                   end) = false).
  { rewrite has_char_app, Hhead. cbn [orb]. destruct (base spec) as [b |]; [| reflexivity].
    apply andb_true_iff in Hb as [_ Hb]. rewrite has_char_app.
    now rewrite (lacks_char _ _ (chr "#") Hb eq_refl). }
  destruct (key spec) as [k |].
  - apply negb_true_iff in Hk. cbn [app]. now rewrite partition_at, or_none_given.
  - rewrite app_nil_r. now rewrite partition_none.
Qed.

(** Reading the identifier of a specification gives the specification
    back, with its prefix in lower case. *)
Lemma parse_render (lower : pystr -> pystr) (spec : ModelSpec) :
  well_spelled spec = true -> strip (render spec) = render spec ->
  _parse_model_spec lower (render spec)
  = {| prefix := option_map lower (prefix spec); model := model spec;
       base := base spec; key := key spec |}.
Proof.
  intros H Hstrip. unfold _parse_model_spec. rewrite Hstrip.
  pose proof (partition_key spec H) as Hk.
  destruct (partition (str "#") (render spec)) as [[pre_hash found_hash] key_part].
  injection Hk as -> Hk.
  pose proof (partition_base spec H) as Hb.
  destruct (partition (str "@") _) as [[pre_at found_at] base_part].
  injection Hb as -> Hb.
  pose proof (partition_head lower spec H) as Hp.
  destruct (partition (str ":") (head spec)) as [[maybe_pref sep] model_part].
  destruct sep; injection Hp as Hp ->; now rewrite Hp, Hb, Hk.
Qed.

(** The name after [together-]. *)
Lemma partition_start (sep s : pystr) :
  startswith s sep = true -> s <> [] ->
  partition sep s = ([], true, skipn (length sep) s).
Proof. intros H Hs. destruct s; [congruence |]. cbn [partition]. now rewrite H. Qed.

Lemma by_name_no_index_error (lower : pystr -> pystr) (spec : ModelSpec)
    (prompts_dir : option pystr) :
  by_name lower spec prompts_dir <> IndexError.
Proof.
  unfold by_name.
  destruct (pystr_eqb (lower (model spec)) (str "o3-pro")); [discriminate |].
  destruct (startswith (model spec) (str "together-")) eqn:Ht.
  - rewrite partition_start; [discriminate | assumption |].
    intros Hm. now rewrite Hm in Ht.
  - repeat match goal with
           | |- (if ?b then _ else _) <> _ => destruct b
           end; discriminate.
Qed.

Lemma by_name_type_error (lower : pystr -> pystr) (spec : ModelSpec)
    (prompts_dir : option pystr) :
  by_name lower spec prompts_dir = TypeError
  <-> pystr_eqb (lower (model spec)) (str "o3-pro") = true.
Proof.
  unfold by_name.
  destruct (pystr_eqb (lower (model spec)) (str "o3-pro")); [tauto |].
  split; [| discriminate].
  destruct (startswith (model spec) (str "together-")).
  - now destruct (partition (str "together-") (model spec)) as [[? []] ?].
  - repeat match goal with
           | |- (if ?b then _ else _) = _ -> _ => destruct b
           end; discriminate.
Qed.

End FactoryFacts.

Section FactoryProperties.
Import Factory.

(** X19.  Reading the identifier [prefix:model@base#key] of a
    specification gives the specification back, with its prefix in lower
    case, when no part contains a separator that is searched before its own
    or that of a later part, a base or a key that is given is not empty,
    and the identifier has no blank at either end. *)
Theorem model_spec_round_trip (lower : pystr -> pystr) (spec : ModelSpec) :
  well_spelled spec = true ->
  strip (render spec) = render spec ->
  _parse_model_spec lower (render spec)
  = {| prefix := option_map lower (prefix spec); model := model spec;
       base := base spec; key := key spec |}.
Proof. apply parse_render. Qed.

Lemma model_spec_round_trip_witness :
  _parse_model_spec ascii_lower (str "openai:llama-3-2-3b@https://localhost:8000#myapikey")
  = documented.
Proof.
  apply (model_spec_round_trip ascii_lower documented); vm_compute; reflexivity.
Defined.

(** X20.  An identifier with one of the eight prefixes selects the client
    of that prefix with the model of the identifier; the base and the key
    go to the two chat-completion clients only, and the prefix
    [openai-responses] ends in the [TypeError] of a constructor that is
    called with an argument it does not take. *)
Theorem prefixed_identifier_selects_client (lower : pystr -> pystr) (spec : ModelSpec)
    (p : pystr) (pref : Prefix) (prompts_dir : option pystr) :
  well_spelled spec = true ->
  strip (render spec) = render spec ->
  prefix spec = Some p ->
  lower p <> [] ->
  Prefix_of (lower (lower p)) = Some pref ->
  load_model_client lower (render spec) prompts_dir
  = match pref with
    | OPENAI =>
        Constructs (OpenAIClient (model spec) prompts_dir (base spec) (key spec))
    | OPENAI_REQUESTS =>
        Constructs (RequestsOpenAIClient (model spec) prompts_dir (base spec) (key spec))
    | OPENAI_RESPONSES => TypeError
    | ANTHROPIC => Constructs (ClaudeClient (model spec) prompts_dir)
    | GEMINI => Constructs (GeminiClient (model spec) prompts_dir)
    | DEEPSEEK => Constructs (DeepSeekClient (model spec) prompts_dir)
    | OPENROUTER => Constructs (OpenRouterClient (model spec) prompts_dir)
    | TOGETHER => Constructs (TogetherAIClient (model spec) prompts_dir)
    end.
Proof.
  intros H Hstrip Hp Hne Hpref. unfold load_model_client.
  rewrite parse_render by assumption. cbn [prefix]. rewrite Hp. cbn [option_map].
  destruct (lower p) as [| c r] eqn:Hl; [congruence |]. cbn [given].
  rewrite Hpref. now destruct pref.
Qed.

Lemma prefixed_identifier_selects_client_witness :
  load_model_client ascii_lower
    (str "openai:llama-3-2-3b@https://localhost:8000#myapikey") None
  = Constructs (OpenAIClient (str "llama-3-2-3b") None
                  (Some (str "https://localhost:8000")) (Some (str "myapikey"))).
Proof.
  apply (prefixed_identifier_selects_client ascii_lower documented (str "openai") OPENAI None);
    try (vm_compute; reflexivity).
  vm_compute. discriminate.
Defined.



(** X22.  The client of the Responses API is never constructed: the
    factory raises [TypeError] exactly for the identifiers that select it,
    those with the prefix [openai-responses] and those without a prefix
    whose model is [o3-pro] in lower case. *)
Theorem responses_client_is_never_built (lower : pystr -> pystr) (model_id : pystr)
    (prompts_dir : option pystr) :
  load_model_client lower model_id prompts_dir = TypeError
  <-> selects_responses lower (_parse_model_spec lower model_id) = true.
Proof.
  unfold load_model_client, selects_responses.
  destruct (given (prefix (_parse_model_spec lower model_id))) as [spec_prefix |];
    [| apply by_name_type_error].
  destruct (Prefix_of (lower spec_prefix)) as [pref |]; [| split; discriminate].
  destruct pref; cbn [by_prefix]; split; (reflexivity || discriminate).
Qed.

(** X23.  The factory never fails on the name after [together-]: the
    split that it indexes has found its separator, at the head of the
    name. *)
Theorem together_name_is_found (lower : pystr -> pystr) (model_id : pystr)
    (prompts_dir : option pystr) :
  load_model_client lower model_id prompts_dir <> IndexError.
Proof.
  unfold load_model_client.
  destruct (given (prefix (_parse_model_spec lower model_id))) as [spec_prefix |];
    [| apply by_name_no_index_error].
  destruct (Prefix_of (lower spec_prefix)) as [pref |]; [| discriminate].
  destruct pref; discriminate.
Qed.

End FactoryProperties.

(* ===================================================================== *)
(** ** Properties of the parsing of negotiation messages *)
(* ===================================================================== *)

Section ConversationFacts.
Import Regex Json Extract Messages Blocks Conversation.

Variable dumps : json -> pystr.

(** *** The validation ends every path *)

Lemma validated_reply_filter (parsed_messages : list json) :
  validated_reply parsed_messages = List.filter is_message_record parsed_messages.
Proof.
  unfold validated_reply. destruct parsed_messages as [| msg rest]; [reflexivity |].
  rewrite validate_loop_filter. cbn [app].
  now destruct (List.filter is_message_record (msg :: rest)).
Qed.

Lemma validated_reply_records (parsed_messages : list json) :
  forallb is_message_record (validated_reply parsed_messages) = true.
Proof.
  rewrite validated_reply_filter. apply forallb_forall. intros m Hm.
  now apply filter_In in Hm as [_ Hm].
Qed.

(** *** A text without a brace *)

Lemma reads_chars (a : N) (k : nat) (st st' : lex_state) (s rest : pystr) :
  reads k st s rest st' -> has_char a s = false -> has_char a rest = false.
Proof.
  intros (consumed & -> & _) H. rewrite has_char_app in H.
  now apply orb_false_iff in H as [_ H].
Qed.

Lemma scan_once_dict (fuel : nat) (s : pystr) (v : json) (rest : pystr) :
  scan_once fuel s = Some (v, rest) -> is_dict v = true -> has_char (chr "{") s = true.
Proof.
  destruct fuel as [| fuel]; [discriminate |]. destruct s as [| c r]; [discriminate |].
  cbn [scan_once]. destruct (N.eqb_spec c dquote) as [-> | _].
  { unfold string_value. destruct (scanstring r [] None) as [[t r'] |]; [| discriminate].
    intros [= <- _]. discriminate. }
  destruct (N.eqb_spec c (chr "{")) as [-> | _]; [reflexivity |].
  destruct (N.eqb_spec c (chr "[")) as [-> | _].
  { destruct (open_array r) as [[t | t] |]; [| | discriminate].
    - intros [= <- _]. discriminate.
    - intros He Hd. exfalso. revert He Hd. generalize (@nil json) as values.
      clear. revert t v rest. induction fuel as [| fuel IH]; intros t v rest values;
        [discriminate |].
      cbn [elements]. destruct (scan_once fuel t) as [[value s1] |]; [| discriminate].
      destruct (after_element s1) as [[u | u] |]; [| | discriminate].
      + intros [= <- _]. discriminate.
      + apply IH. }
  unfold atom.
  repeat match goal with
         | |- (if ?b then _ else _) = _ -> _ => destruct b
         | |- keyword _ _ _ = _ -> _ =>
             unfold keyword;
             match goal with |- (if ?b then _ else _) = _ -> _ => destruct b end;
             [intros [= <- _]; discriminate | discriminate]
         | |- match ?m with _ => _ end = _ -> _ => destruct m as [[lexeme r'] |]
         | |- Some _ = _ -> _ => intros [= <- _]; discriminate
         | |- None = _ -> _ => discriminate
         end.
Qed.

Lemma elements_flat (fuel : nat) :
  forall s values v rest,
    has_char (chr "{") s = false ->
    forallb (fun item => negb (is_dict item)) values = true ->
    elements fuel s values = Some (v, rest) ->
    flat v = true.
Proof.
  induction fuel as [| fuel IH]; intros s values v rest Hs Hvalues; [discriminate |].
  cbn [elements]. destruct (scan_once fuel s) as [[value s1] |] eqn:Hv; [| discriminate].
  assert (Hvalue : is_dict value = false).
  { apply not_true_is_false. intros Hd. apply (scan_once_dict _ _ _ _ Hv) in Hd. congruence. }
  assert (Hall : forallb (fun item => negb (is_dict item)) (values ++ [value]) = true).
  { rewrite forallb_app, Hvalues. cbn [forallb]. now rewrite Hvalue. }
  pose proof (reads_chars _ _ _ _ _ _ (proj1 (decoder_reads fuel) _ _ _ Hv) Hs) as Hs1.
  destruct (after_element s1) as [[u | u] |] eqn:Ha; [| | discriminate].
  - intros [= <- _]. exact Hall.
  - apply after_element_reads in Ha. apply IH; [| assumption].
    exact (reads_chars _ _ _ _ _ _ Ha Hs1).
Qed.

Lemma loads_flat (s : pystr) (items : list json) :
  has_char (chr "{") s = false -> loads s = Some (JArr items) ->
  forallb (fun item => negb (is_dict item)) items = true.
Proof.
  intros Hs. unfold loads. destruct (startswith s [65279]); [discriminate |].
  pose proof (reads_chars _ _ _ _ _ _ (skip_ws_reads s) Hs) as Hws.
  destruct (skip_ws s) as [| c r] eqn:Hskip; [discriminate |].
  cbn [scan_once]. destruct (N.eqb_spec c dquote) as [-> | _].
  { unfold string_value. destruct (scanstring r [] None) as [[t r'] |]; [| discriminate].
    destruct (skip_ws r'); discriminate. }
  destruct (N.eqb_spec c (chr "{")) as [-> | _]; [discriminate |].
  destruct (N.eqb_spec c (chr "[")) as [-> | _].
  - apply has_char_tail in Hws.
    destruct (open_array r) as [[t | t] |] eqn:Ho; [| | discriminate].
    + destruct (skip_ws t); [| discriminate]. now intros [= <-].
    + destruct (elements _ t []) as [[v rest] |] eqn:He; [| discriminate].
      destruct (skip_ws rest); [| discriminate]. intros [= ->].
      apply open_array_reads in Ho.
      exact (elements_flat _ _ [] _ _ (reads_chars _ _ _ _ _ _ Ho Hws) eq_refl He).
  - destruct (atom (c :: r)) as [[v rest] |] eqn:Ha; [| discriminate].
    destruct (skip_ws rest); [| discriminate]. intros [= ->].
    assert (Hd : flat (JArr items) = true -> forallb (fun item => negb (is_dict item)) items = true)
      by trivial.
    apply Hd. clear Hd. revert Ha. unfold atom.
    repeat match goal with
           | |- (if ?b then _ else _) = _ -> _ => destruct b
           | |- keyword _ _ _ = _ -> _ =>
               unfold keyword;
               match goal with |- (if ?b then _ else _) = _ -> _ => destruct b end;
               [intros [= ? _]; discriminate | discriminate]
           | |- match ?m with _ => _ end = _ -> _ => destruct m as [[lexeme r'] |]
           | |- Some _ = _ -> _ => intros [= ? _]; discriminate
           | |- None = _ -> _ => discriminate
           end.
Qed.

Lemma no_dict_no_record (items : list json) :
  forallb (fun item => negb (is_dict item)) items = true ->
  List.filter is_message_record items = [].
Proof.
  intros H. apply filter_out. rewrite forallb_forall in *. intros m Hm.
  specialize (H m Hm). now destruct m.
Qed.

Lemma findall_needs (a : N) (r : regex) (fuel : nat) :
  needs a r = true ->
  forall s, has_char a s = false -> findall_from fuel r s = [].
Proof.
  intros Hr. induction fuel as [| fuel IH]; intros s Hs; [reflexivity |].
  destruct s as [| c s]; [reflexivity |]. cbn [findall_from]. unfold match_here.
  rewrite matches_needs with (a := a) by auto. apply IH. now apply has_char_tail in Hs.
Qed.

Lemma fallback_blocks_none (raw_response : pystr) :
  has_char (chr "{") raw_response = false ->
  has_char (chr "`") raw_response = false ->
  fallback_blocks dumps raw_response = [].
Proof.
  intros Hbrace Hfence. unfold fallback_blocks, findall.
  rewrite (findall_needs (chr "{")) by (reflexivity || assumption). cbn [Orders.is_empty negb].
  rewrite (search_needs (chr "`")) by (reflexivity || assumption).
  now rewrite (findall_needs (chr "{")) by (reflexivity || assumption).
Qed.

(** *** A block between double braces *)






End ConversationFacts.

Section ConversationProperties.
Import Regex Json Extract Messages Blocks Conversation.

(** X24.  Whatever the response and on every parsing path, each message
    returned is a dictionary with [message_type] and [content] and, when its
    [message_type] is [private], also [recipient]. *)
Theorem every_reply_is_a_message (dumps : json -> pystr)
    (responses : option (pystr * pystr)) :
  forallb is_message_record (get_conversation_reply dumps responses) = true.
Proof.
  destruct responses as [[raw_response formatted_response] |]; [| reflexivity].
  apply validated_reply_records.
Qed.



(** X26.  A response without an opening brace and without a backquote
    yields no message, also when it is valid JSON. *)
Theorem no_message_without_brace (dumps : json -> pystr)
    (raw_response formatted_response : pystr) :
  has_char (chr "{") raw_response = false ->
  has_char (chr "`") raw_response = false ->
  has_char (chr "{") formatted_response = false ->
  has_char (chr "`") formatted_response = false ->
  get_conversation_reply dumps (Some (raw_response, formatted_response)) = [].
Proof.
  intros Hb Hf Hb' Hf'. cbn [get_conversation_reply].
  pose proof (fallback_blocks_none dumps _ Hb Hf) as Hraw.
  pose proof (fallback_blocks_none dumps _ Hb' Hf') as Hformatted.
  destruct (loads formatted_response) as [data |] eqn:Hdata.
  - destruct data as [| b | lexeme | t | items | fields];
      try (cbn [Orders.is_empty]; now rewrite Hraw).
    destruct items as [| item items]; [cbn [Orders.is_empty]; now rewrite Hraw |].
    cbn [Orders.is_empty]. rewrite validated_reply_filter.
    apply no_dict_no_record. exact (loads_flat _ _ Hb' Hdata).
  - cbn [Orders.is_empty]. now rewrite Hformatted.
Qed.

Lemma no_message_without_brace_witness :
  get_conversation_reply (fun _ => [])
    (Some (text "[~Peace~, ~War~]", text "[~Peace~, ~War~]")) = [].
Proof.
  apply (no_message_without_brace (fun _ => [])); vm_compute; reflexivity.
Defined.



End ConversationProperties.
